(** * NoxTab: the CDP client of [cdp-tool.js]

    A shallow embedding of the target selector ([pickTarget]), the protocol
    client ([CDPClient]: [send], [on], [close] and the 'message' and 'close'
    handlers installed by [connect]) and the session wrapper ([withClient]),
    followed by the properties the specification states about them.

    JavaScript values are modelled as follows.
    - A parsed JSON value is a [json]; a property that is absent reads as
      [None] ([undefined]).
    - Numbers are integers in [Z]: call ids are produced by [++this.id] from 0,
      which is exact in double arithmetic below 2^53, the range the model
      covers.  A frame whose [id] is not an integer matches no pending call,
      like an integer that is not pending.
    - A promise is a handle into the list [promises] of settlement states;
      the [{resolve, reject}] pair stored in [pending] is that handle.
    - The two [Map]s of the client are finite maps.
    - [String(v)] and [JSON.stringify(v)] of the runtime are kept as they are
      written ([text]); the string value of a string is the string. *)

From stdpp Require Import base option list gmap strings pretty.
From Stdlib Require Import ZArith Lia.

Local Open Scope string_scope.
Local Open Scope list_scope.
Set Warnings "-register-all".

(** ** JavaScript values *)

Module JS.

(** A parsed JSON value.  [JObj] lists the properties of the object, each name
    once. *)
Inductive json : Type :=
  | JNull
  | JBool (b : bool)
  | JNum (n : Z)
  | JStr (s : string)
  | JArr (items : list json)
  | JObj (props : list (string * json)).

(** The value of the property [k] among the properties of an object. *)
Fixpoint assoc (k : string) (props : list (string * json)) : option json :=
  match props with
  | [] => None
  | (k', v) :: rest => if String.eqb k' k then Some v else assoc k rest
  end.

(** [v.k]: the own property [k] of an object; [undefined] on every other
    value that is not [null] (numbers, strings, booleans and arrays have no
    property of the names the program reads).  Reading a property of [null]
    throws; [on_message] below tests for [null] first. *)
Definition prop (v : json) (k : string) : option json :=
  match v with
  | JObj props => assoc k props
  | _ => None
  end.

(** ToBoolean. *)
Definition truthy (v : json) : bool :=
  match v with
  | JNull => false
  | JBool b => b
  | JNum n => negb (n =? 0)%Z
  | JStr s => negb (String.eqb s EmptyString)
  | JArr _ | JObj _ => true
  end.

(** The value of a property when it is truthy: [Some v] where [if (o)] takes
    the branch, [None] where it does not ([undefined] included). *)
Definition truthy_value (o : option json) : option json :=
  match o with
  | Some v => if truthy v then Some v else None
  | None => None
  end.

(** [o || d] *)
Definition or_else (o : option json) (d : json) : json :=
  match truthy_value o with
  | Some v => v
  | None => d
  end.

(** [{}] *)
Definition empty_object : json := JObj [].

(** A string-valued flag or field that may be [undefined]: [Some s] when it is
    truthy (a non-empty string), [None] otherwise. *)
Definition truthy_string (o : option string) : option string :=
  match o with
  | Some (String c s) => Some (String c s)
  | _ => None
  end.

(** [s || ''] for a string field that may be [undefined]. *)
Definition string_or_empty (o : option string) : string :=
  match o with
  | Some s => s
  | None => EmptyString
  end.

(** [hay.includes(needle)]: [needle] occurs in [hay] as a contiguous run of
    characters, compared exactly. *)
Fixpoint includes (hay needle : string) : bool :=
  String.prefix needle hay ||
  match hay with
  | EmptyString => false
  | String _ hay' => includes hay' needle
  end.

(** Text computed by the runtime: a known string, [String(v)] for a value that
    is not a string, or [JSON.stringify(v)]. *)
Inductive text : Type :=
  | Lit (s : string)
  | String_of (v : json)
  | JSON_stringify (v : json).

Definition to_text (v : json) : text :=
  match v with
  | JStr s => Lit s
  | _ => String_of v
  end.

(** Exceptions: [new Error(message)], and the [TypeError] of the runtime. *)
Inductive exn : Type :=
  | Error (message : text)
  | TypeError.

(** The completion of a synchronous call. *)
Inductive completion (A : Type) : Type :=
  | Normal (a : A)
  | Throw (e : exn).
Arguments Normal {A} a.
Arguments Throw {A} e.

End JS.
Import JS.

(** ** Targets and selection flags *)

Module Target.
Record t : Type := mk {
  id : string;
  type : string;
  url : option string;
  title : option string;
  webSocketDebuggerUrl : option string
}.
End Target.

Module Flags.
Record t : Type := mk {
  host : string;
  port : Z;
  target : option string;
  urlContains : option string;
  titleContains : option string
}.
End Flags.

(** The three errors of [pickTarget].  The specification calls them
    SelectionError "no targets", "target not found" and "no match"; the
    program has the one class [Error] and these messages. *)
Definition no_page_targets : exn := Error (Lit "No page targets found").
Definition target_id_not_found (target : string) : exn :=
  Error (Lit ("Target id not found: " +:+ target)).
Definition no_targets_matched : exn :=
  Error (Lit "No targets matched the provided filters").

(** [pickTarget(targets, flags)] *)
Definition pickTarget (targets : list Target.t) (flags : Flags.t)
  : completion Target.t :=
  if (length targets =? 0)%nat then Throw no_page_targets
  else
    match truthy_string (Flags.target flags) with
    | Some target =>
        match List.find (fun t => String.eqb (Target.id t) target) targets with
        | None => Throw (target_id_not_found target)
        | Some exact => Normal exact
        end
    | None =>
        let filtered := targets in
        let filtered :=
          match truthy_string (Flags.urlContains flags) with
          | Some part =>
              List.filter
                (fun t => includes (string_or_empty (Target.url t)) part)
                filtered
          | None => filtered
          end in
        let filtered :=
          match truthy_string (Flags.titleContains flags) with
          | Some part =>
              List.filter
                (fun t => includes (string_or_empty (Target.title t)) part)
                filtered
          | None => filtered
          end in
        (* [filtered.length === 0] throws, otherwise [filtered[0]] *)
        match filtered with
        | [] => Throw no_targets_matched
        | first :: _ => Normal first
        end
    end.

(** [listTargets]: the page targets of the discovery response that carry a
    channel address, in the order of the response. *)
Definition is_page (t : Target.t) : bool :=
  String.eqb (Target.type t) "page" &&
  match truthy_string (Target.webSocketDebuggerUrl t) with
  | Some _ => true
  | None => false
  end.

Definition listTargets_filter (targets : list Target.t) : list Target.t :=
  List.filter is_page targets.

(** ** The protocol client *)

(** A promise is named by its position in the list of settlement states. *)
Definition promise : Type := nat.

Inductive settlement : Type :=
  | Unsettled
  | Fulfilled (v : json)
  | Rejected (e : exn).

(** An event handler registered with [on] is named by a number; invoking it
    is recorded in [invoked]. *)
Definition handler : Type := nat.

(** One [ws.send(text, callback)]: the payload whose JSON text was written,
    and the [id] and [reject] that the completion callback closes over. *)
Record write : Type := mk_write {
  payload : json;
  cb_id : Z;
  cb_reject : promise
}.

Module WebSocket.
(** [readyState]: 0 CONNECTING, 1 OPEN, 2 CLOSING, 3 CLOSED. *)
Record t : Type := mk {
  readyState : Z;
  sent : list write
}.
End WebSocket.

Module CDPClient.
Record t : Type := mk {
  wsUrl : string;
  ws : option WebSocket.t;
  id : Z;
  pending : gmap Z promise;
  eventHandlers : gmap string (list handler)
}.
End CDPClient.

(** The client object together with the promises created so far and the
    record of handler invocations. *)
Record state : Type := mk_state {
  client : CDPClient.t;
  promises : list settlement;
  invoked : list (handler * json)
}.

Definition set_client (c : CDPClient.t) (st : state) : state :=
  {| client := c; promises := promises st; invoked := invoked st |}.

Definition set_pending (m : gmap Z promise) (c : CDPClient.t) : CDPClient.t :=
  {| CDPClient.wsUrl := CDPClient.wsUrl c;
     CDPClient.ws := CDPClient.ws c;
     CDPClient.id := CDPClient.id c;
     CDPClient.pending := m;
     CDPClient.eventHandlers := CDPClient.eventHandlers c |}.

Definition set_ws (w : option WebSocket.t) (c : CDPClient.t) : CDPClient.t :=
  {| CDPClient.wsUrl := CDPClient.wsUrl c;
     CDPClient.ws := w;
     CDPClient.id := CDPClient.id c;
     CDPClient.pending := CDPClient.pending c;
     CDPClient.eventHandlers := CDPClient.eventHandlers c |}.

(** [resolve(v)] and [reject(e)] of a promise: the first settlement stays, a
    later one has no effect. *)
Definition settle (p : promise) (s : settlement) (ps : list settlement)
  : list settlement :=
  match ps !! p with
  | Some Unsettled => <[p := s]> ps
  | _ => ps
  end.

Definition resolve (p : promise) (v : json) (st : state) : state :=
  {| client := client st;
     promises := settle p (Fulfilled v) (promises st);
     invoked := invoked st |}.

Definition reject (p : promise) (e : exn) (st : state) : state :=
  {| client := client st;
     promises := settle p (Rejected e) (promises st);
     invoked := invoked st |}.

(** [constructor(wsUrl)] *)
Definition new_CDPClient (wsUrl : string) : CDPClient.t :=
  {| CDPClient.wsUrl := wsUrl;
     CDPClient.ws := None;
     CDPClient.id := 0;
     CDPClient.pending := ∅;
     CDPClient.eventHandlers := ∅ |}.

(** [Map.get] and [Map.delete] with a JSON value as the key.  The keys of
    [pending] are numbers and those of [eventHandlers] are strings, so a value
    of another kind is the key of no entry. *)
Definition pending_get (k : json) (c : CDPClient.t) : option promise :=
  match k with
  | JNum n => CDPClient.pending c !! n
  | _ => None
  end.

Definition pending_delete (k : json) (c : CDPClient.t) : CDPClient.t :=
  match k with
  | JNum n => set_pending (delete n (CDPClient.pending c)) c
  | _ => c
  end.

Definition handlers_get (k : json) (c : CDPClient.t) : option (list handler) :=
  match k with
  | JStr m => CDPClient.eventHandlers c !! m
  | _ => None
  end.

(** [msg.error.message || JSON.stringify(msg.error)], as the message of the
    [Error] built from it. *)
Definition error_message (e : json) : text :=
  match truthy_value (prop e "message") with
  | Some m => to_text m
  | None => JSON_stringify e
  end.

(** [if (msg.error) cb.reject(new Error(...)); else cb.resolve(msg.result || {})]:
    what a response frame does to the call it answers. *)
Definition settlement_of (msg : json) : settlement :=
  match truthy_value (prop msg "error") with
  | Some e => Rejected (Error (error_message e))
  | None => Fulfilled (or_else (prop msg "result") empty_object)
  end.

(** [h(params)] *)
Definition invoke (params : json) (st : state) (h : handler) : state :=
  {| client := client st;
     promises := promises st;
     invoked := invoked st ++ [(h, params)] |}.

(** The 'message' handler installed by [connect], on [msg], the value of
    [JSON.parse(String(raw))]. *)
Definition on_message (msg : json) (st : state) : completion state :=
  match msg with
  | JNull => Throw TypeError
  | _ =>
      match truthy_value (prop msg "id") with
      | Some id =>
          match pending_get id (client st) with
          | None => Normal st
          | Some cb =>
              let st := set_client (pending_delete id (client st)) st in
              match truthy_value (prop msg "error") with
              | Some e => Normal (reject cb (Error (error_message e)) st)
              | None =>
                  Normal (resolve cb (or_else (prop msg "result") empty_object) st)
              end
          end
      | None =>
          match truthy_value (prop msg "method") with
          | Some method =>
              match handlers_get method (client st) with
              | Some handlers =>
                  Normal
                    (foldl (invoke (or_else (prop msg "params") empty_object))
                           st handlers)
              | None => Normal st
              end
          | None => Normal st
          end
      end
  end.

Definition websocket_closed : exn := Error (Lit "WebSocket closed").

(** The 'close' handler installed by [connect].  The loop visits every entry
    of [pending] once; each is rejected with the same error, so the order of
    the visit (insertion order in JavaScript) does not show in the promises. *)
Definition on_close (st : state) : state :=
  let st :=
    map_fold (fun _ cb st => reject cb websocket_closed st)
             st (CDPClient.pending (client st)) in
  set_client (set_pending ∅ (client st)) st.

(** [send(method, params)]: the promise returned, and the state after the
    executor has run.  [ws.send] hands the text to the socket; when the write
    fails the socket calls the callback with the error ([send_failed]). *)
Definition send (method : string) (params : json) (st : state)
  : promise * state :=
  let c := client st in
  let id := (CDPClient.id c + 1)%Z in
  let payload :=
    JObj [("id", JNum id); ("method", JStr method); ("params", params)] in
  let p := length (promises st) in
  let pending := <[id := p]> (CDPClient.pending c) in
  match CDPClient.ws c with
  | Some w =>
      (p,
       {| client :=
            {| CDPClient.wsUrl := CDPClient.wsUrl c;
               CDPClient.ws :=
                 Some {| WebSocket.readyState := WebSocket.readyState w;
                         WebSocket.sent :=
                           WebSocket.sent w ++ [mk_write payload id p] |};
               CDPClient.id := id;
               CDPClient.pending := pending;
               CDPClient.eventHandlers := CDPClient.eventHandlers c |};
          promises := promises st ++ [Unsettled];
          invoked := invoked st |})
  | None =>
      (* [this.ws] is null: the executor throws after [pending.set], which
         rejects the new promise *)
      (p,
       {| client :=
            {| CDPClient.wsUrl := CDPClient.wsUrl c;
               CDPClient.ws := None;
               CDPClient.id := id;
               CDPClient.pending := pending;
               CDPClient.eventHandlers := CDPClient.eventHandlers c |};
          promises := promises st ++ [Rejected TypeError];
          invoked := invoked st |})
  end.

(** The completion callback of a write, called with an error:
    [this.pending.delete(id); reject(err)].  Without an error it returns at
    once. *)
Definition send_failed (w : write) (err : exn) (st : state) : state :=
  reject (cb_reject w) err
         (set_client
            (set_pending (delete (cb_id w) (CDPClient.pending (client st)))
                         (client st))
            st).

(** [on(method, handler)] *)
Definition on (method : string) (h : handler) (st : state) : state :=
  let c := client st in
  let handlers := default [] (CDPClient.eventHandlers c !! method) in
  let handlers := handlers ++ [h] in
  set_client
    {| CDPClient.wsUrl := CDPClient.wsUrl c;
       CDPClient.ws := CDPClient.ws c;
       CDPClient.id := CDPClient.id c;
       CDPClient.pending := CDPClient.pending c;
       CDPClient.eventHandlers := <[method := handlers]> (CDPClient.eventHandlers c) |}
    st.

(** [ws.close()] on an open socket starts the closing handshake. *)
Definition ws_close (w : WebSocket.t) : WebSocket.t :=
  {| WebSocket.readyState := 2; WebSocket.sent := WebSocket.sent w |}.

(** [close()] *)
Definition close (st : state) : state :=
  match CDPClient.ws (client st) with
  | Some w =>
      if (WebSocket.readyState w =? 1)%Z
      then set_client (set_ws (Some (ws_close w)) (client st)) st
      else st
  | None => st
  end.

(** ** Events of the socket and histories of a connection *)

(** What the socket library reports after [connect] has returned: a frame,
    the end of the connection, or the failure of the write numbered [k]. *)
Inductive event : Type :=
  | ws_message (msg : json)
  | ws_closed
  | ws_send_error (k : nat) (err : exn).

Definition sent_of (st : state) : list write :=
  match CDPClient.ws (client st) with
  | Some w => WebSocket.sent w
  | None => []
  end.

(** The socket is CLOSED when 'close' is emitted. *)
Definition socket_closed (st : state) : state :=
  match CDPClient.ws (client st) with
  | Some w =>
      set_client
        (set_ws (Some {| WebSocket.readyState := 3;
                         WebSocket.sent := WebSocket.sent w |})
                (client st))
        st
  | None => st
  end.

Definition deliver (ev : event) (st : state) : completion state :=
  match ev with
  | ws_message msg => on_message msg st
  | ws_closed => Normal (on_close (socket_closed st))
  | ws_send_error k err =>
      match sent_of st !! k with
      | Some w => Normal (send_failed w err st)
      | None => Normal st
      end
  end.

(** One thing that happens to a connected client: a method called by the
    program or an event of the socket. *)
Inductive action : Type :=
  | call_send (method : string) (params : json)
  | call_on (method : string) (h : handler)
  | call_close
  | incoming (ev : event).

Definition step (a : action) (st : state) : completion state :=
  match a with
  | call_send method params => Normal (snd (send method params st))
  | call_on method h => Normal (on method h st)
  | call_close => Normal (close st)
  | incoming ev => deliver ev st
  end.

Fixpoint run (history : list action) (st : state) : completion state :=
  match history with
  | [] => Normal st
  | a :: rest =>
      match step a st with
      | Normal st' => run rest st'
      | Throw e => Throw e
      end
  end.

(** The client as [connect] leaves it when the socket reports 'open'. *)
Definition connected (wsUrl : string) : state :=
  {| client :=
       set_ws (Some {| WebSocket.readyState := 1; WebSocket.sent := [] |})
              (new_CDPClient wsUrl);
     promises := [];
     invoked := [] |}.

(** The states a connection passes through. *)
Definition reachable (st : state) : Prop :=
  exists wsUrl history, run history (connected wsUrl) = Normal st.

(** Several calls issued one after the other. *)
Fixpoint send_all (calls : list (string * json)) (st : state)
  : list promise * state :=
  match calls with
  | [] => ([], st)
  | (method, params) :: rest =>
      let '(p, st1) := send method params st in
      let '(ps, st2) := send_all rest st1 in
      (p :: ps, st2)
  end.

(** ** Asynchronous functions *)

(** An [async] function runs against the events still to come.  It returns, or
    throws, or awaits a promise that no event settles, or the process ends on
    an exception thrown inside an event handler. *)
Inductive outcome (A : Type) : Type :=
  | Returned (a : A) (inbox : list event) (st : state)
  | Threw (e : exn) (inbox : list event) (st : state)
  | Suspended (st : state)
  | Crashed (e : exn) (st : state).
Arguments Returned {A} a inbox st.
Arguments Threw {A} e inbox st.
Arguments Suspended {A} st.
Arguments Crashed {A} e st.

Definition async (A : Type) : Type := list event -> state -> outcome A.

#[global] Instance async_ret : MRet async :=
  fun A a inbox st => Returned a inbox st.

#[global] Instance async_bind : MBind async :=
  fun A B k m inbox st =>
    match m inbox st with
    | Returned a inbox' st' => k a inbox' st'
    | Threw e inbox' st' => Threw e inbox' st'
    | Suspended st' => Suspended st'
    | Crashed e st' => Crashed e st'
    end.

(** [await p]: events are handled until [p] is settled. *)
Fixpoint await (p : promise) (inbox : list event) (st : state) : outcome json :=
  match promises st !! p with
  | Some (Fulfilled v) => Returned v inbox st
  | Some (Rejected e) => Threw e inbox st
  | _ =>
      match inbox with
      | [] => Suspended st
      | ev :: inbox' =>
          match deliver ev st with
          | Normal st' => await p inbox' st'
          | Throw e => Crashed e st
          end
      end
  end.

(** [await client.send(method, params)] *)
Definition await_send (method : string) (params : json) : async json :=
  fun inbox st =>
    let '(p, st') := send method params st in
    await p inbox st'.

(** [try { body } finally { fin }], for a [fin] that does not throw. *)
Definition try_finally {A} (body : async A) (fin : state -> state) : async A :=
  fun inbox st =>
    match body inbox st with
    | Returned a inbox' st' => Returned a inbox' (fin st')
    | Threw e inbox' st' => Threw e inbox' (fin st')
    | Suspended st' => Suspended st'
    | Crashed e st' => Crashed e st'
    end.

(** ** The session *)

(** How the opening of the socket ends. *)
Inductive handshake : Type :=
  | ws_open
  | ws_error (e : exn)
  | ws_silent.

(** [connect()]: the socket is created, and the caller waits for 'open' or
    'error'. *)
Definition connect (h : handshake) : async unit :=
  fun inbox st =>
    let socket (readyState : Z) :=
      set_client
        (set_ws (Some {| WebSocket.readyState := readyState;
                         WebSocket.sent := [] |})
                (client st))
        st in
    match h with
    | ws_open => Returned tt inbox (socket 1%Z)
    | ws_error e => Threw e inbox (socket 3%Z)
    | ws_silent => Suspended (socket 0%Z)
    end.

(** [listTargets(host, port)], on the outcome of [fetchJson]. *)
Definition listTargets (fetched : completion (list Target.t))
  : completion (list Target.t) :=
  match fetched with
  | Normal targets => Normal (listTargets_filter targets)
  | Throw e => Throw e
  end.

(** The [try] block of [withClient]. *)
Definition session_body (fn : Target.t -> async unit) (target : Target.t)
  : async unit :=
  await_send "Page.enable" empty_object ;;
  await_send "Runtime.enable" empty_object ;;
  await_send "Log.enable" empty_object ;;
  fn target.

(** The [try] block with its [finally { client.close(); }]. *)
Definition session (fn : Target.t -> async unit) (target : Target.t)
  : async unit :=
  try_finally (session_body fn target) close.

(** How [withClient] ends: before a client is connected, or with the outcome
    of the session on the connected client. *)
Inductive session_result : Type :=
  | NotConnected (e : exn)
  | NeverConnected
  | Session (o : outcome unit).

(** [withClient(flags, fn)] *)
Definition withClient (fetched : completion (list Target.t)) (h : handshake)
    (flags : Flags.t) (fn : Target.t -> async unit) (inbox : list event)
  : session_result :=
  match listTargets fetched with
  | Throw e => NotConnected e
  | Normal targets =>
      match pickTarget targets flags with
      | Throw e => NotConnected e
      | Normal target =>
          let client :=
            new_CDPClient (string_or_empty (Target.webSocketDebuggerUrl target)) in
          let st := {| client := client; promises := []; invoked := [] |} in
          match connect h inbox st with
          | Returned _ inbox' st' => Session (session fn target inbox' st')
          | Threw e _ _ => NotConnected e
          | Suspended _ => NeverConnected
          | Crashed e _ => NotConnected e
          end
      end
  end.

(** Whether the channel of the client is open. *)
Definition channel_open (st : state) : bool :=
  match CDPClient.ws (client st) with
  | Some w => (WebSocket.readyState w =? 1)%Z
  | None => false
  end.

(** ** Definitions used by the statements *)

(** The selection policy in the words of the specification: a filter that is
    set keeps the targets whose field contains the substring, the two filters
    hold together, and the first surviving target of the list is chosen. *)
Definition contains (field : option string) (part : option string) : bool :=
  match part with
  | Some part => includes (string_or_empty field) part
  | None => true
  end.

Definition survives (criteria : Flags.t) (t : Target.t) : bool :=
  contains (Target.url t) (Flags.urlContains criteria) &&
  contains (Target.title t) (Flags.titleContains criteria).

Definition first_surviving (targets : list Target.t) (criteria : Flags.t)
  : option Target.t :=
  List.find (survives criteria) targets.


(** [t] is the first element of [l] that satisfies [P]. *)
Definition first_with {A} (P : A -> Prop) (l : list A) (t : A) : Prop :=
  exists i, l !! i = Some t /\ P t /\
            forall j t', (j < i)%nat -> l !! j = Some t' -> ~ P t'.

(** The flags [parseArgs] starts from, and the selection flags set on them. *)
Definition default_flags : Flags.t :=
  {| Flags.host := "127.0.0.1"; Flags.port := 9222; Flags.target := None;
     Flags.urlContains := None; Flags.titleContains := None |}.

Definition with_target (target : string) (flags : Flags.t) : Flags.t :=
  {| Flags.host := Flags.host flags; Flags.port := Flags.port flags;
     Flags.target := Some target;
     Flags.urlContains := Flags.urlContains flags;
     Flags.titleContains := Flags.titleContains flags |}.

Definition with_filters (urlContains titleContains : option string)
    (flags : Flags.t) : Flags.t :=
  {| Flags.host := Flags.host flags; Flags.port := Flags.port flags;
     Flags.target := Flags.target flags;
     Flags.urlContains := urlContains;
     Flags.titleContains := titleContains |}.

(** The targets of Scenario A. *)
Definition target_A : Target.t :=
  {| Target.id := "A"; Target.type := "page"; Target.url := Some "http://x";
     Target.title := Some "Foo";
     Target.webSocketDebuggerUrl := Some "ws://127.0.0.1:9222/devtools/page/A" |}.

Definition target_B : Target.t :=
  {| Target.id := "B"; Target.type := "page"; Target.url := Some "http://y";
     Target.title := Some "Bar";
     Target.webSocketDebuggerUrl := Some "ws://127.0.0.1:9222/devtools/page/B" |}.

(** A connected client on which one call has been sent: the call has id 1
    and its promise is number 0. *)
Definition one_call : state :=
  snd (send "Runtime.evaluate" empty_object (connected "ws://127.0.0.1:9222")).

(** Scenario C: [{"id":99,"result":{}}] and [{"id":1,"result":{"value":42}}]. *)
Definition frame_stray : json := JObj [("id", JNum 99); ("result", JObj [])].
Definition frame_value_42 : json :=
  JObj [("id", JNum 1); ("result", JObj [("value", JNum 42)])].

(** Scenario D: [{"id":1,"error":{"message":"boom"}}], also with a result. *)
Definition frame_boom : json :=
  JObj [("id", JNum 1); ("error", JObj [("message", JStr "boom")])].
Definition frame_boom_and_result : json :=
  JObj [("id", JNum 1); ("result", JObj [("value", JNum 42)]);
        ("error", JObj [("message", JStr "boom")])].

(** A response that carries an [error] field that is [null] next to its
    result, as JSON-RPC 1.0 responses do. *)
Definition frame_null_error : json :=
  JObj [("id", JNum 1); ("result", JObj [("value", JNum 42)]); ("error", JNull)].

(** A frame with both an id and the name of an event. *)
Definition frame_id_and_method : json :=
  JObj [("id", JNum 1); ("method", JStr "Runtime.consoleAPICalled");
        ("params", JObj [])].
Definition frame_event : json :=
  JObj [("method", JStr "Runtime.consoleAPICalled"); ("params", JObj [])].

(** The same client after [on('Runtime.consoleAPICalled', handler 0)]. *)
Definition listening : state := on "Runtime.consoleAPICalled" 0%nat one_call.

(** A frame with the id 0, which is the id of no call, and the name of an
    event. *)
Definition frame_id_0 : json :=
  JObj [("id", JNum 0); ("method", JStr "Runtime.consoleAPICalled");
        ("params", JObj [])].

(** The handlers registered for the method that a frame names. *)
Definition handlers_for (msg : json) (st : state) : list handler :=
  match truthy_value (prop msg "method") with
  | Some method => default [] (handlers_get method (client st))
  | None => []
  end.

(** ** The invariant of a connection *)

(** What rejecting the promises held in [m] with [e] does to the promises
    [ps]: the unsettled ones among them are rejected with [e], and every other
    promise is as before. *)
Definition rejected_all (e : exn) (m : gmap Z promise)
    (ps ps' : list settlement) : Prop :=
  length ps' = length ps /\
  (forall q s, ps !! q = Some s -> s <> Unsettled -> ps' !! q = Some s) /\
  (forall q, ps !! q = Some Unsettled ->
             ps' !! q = Some Unsettled \/ ps' !! q = Some (Rejected e)) /\
  (forall i q, m !! i = Some q -> ps !! q = Some Unsettled ->
               ps' !! q = Some (Rejected e)) /\
  (forall q, (forall i, m !! i <> Some q) -> ps' !! q = ps !! q).


(** What holds of a connected client at every moment: the socket is there;
    the writes carry the ids 1, 2, ... in order and the counter is the last of
    them; each write has a promise of its own; a pending entry is the id and
    the promise of one write, and that promise is unsettled; and a write whose
    promise is unsettled is pending under its id. *)
Record invariant (st : state) : Prop := {
  inv_socket : is_Some (CDPClient.ws (client st));
  inv_counter : CDPClient.id (client st) = Z.of_nat (length (sent_of st));
  inv_ids : forall k w, sent_of st !! k = Some w ->
    cb_id w = Z.of_nat (S k) /\
    prop (payload w) "id" = Some (JNum (cb_id w));
  inv_promises : forall k w, sent_of st !! k = Some w ->
    (cb_reject w < length (promises st))%nat;
  inv_distinct : forall k k' w w',
    sent_of st !! k = Some w -> sent_of st !! k' = Some w' ->
    cb_reject w = cb_reject w' -> k = k';
  inv_pending : forall i p, CDPClient.pending (client st) !! i = Some p ->
    promises st !! p = Some Unsettled /\
    exists k w, sent_of st !! k = Some w /\ cb_id w = i /\ cb_reject w = p;
  inv_live : forall k w, sent_of st !! k = Some w ->
    promises st !! cb_reject w = Some Unsettled ->
    CDPClient.pending (client st) !! cb_id w = Some (cb_reject w)
}.

(** A connected client on which two calls are outstanding. *)
Definition two_calls : state :=
  snd (send "Page.captureScreenshot" empty_object one_call).

(** Three calls, and a response for each: a result, an error and an empty
    result. *)
Definition three_calls : list (string * json) :=
  [("Page.navigate", JObj [("url", JStr "http://127.0.0.1:8080")]);
   ("Runtime.evaluate", JObj [("expression", JStr "document.title")]);
   ("Page.captureScreenshot", JObj [("format", JStr "png")])].

Definition response_1 : json :=
  JObj [("id", JNum 1); ("result", JObj [("frameId", JStr "F")])].
Definition response_2 : json :=
  JObj [("id", JNum 2); ("error", JObj [("message", JStr "boom")])].
Definition response_3 : json := JObj [("id", JNum 3); ("result", JObj [])].

(** The state in which an [async] function returns or throws, if it does. *)
Definition exit_state {A} (o : outcome A) : option state :=
  match o with
  | Returned _ _ st | Threw _ _ st => Some st
  | Suspended _ | Crashed _ _ => None
  end.

(** Scenarios of a session: the responses to the three setup calls; the same
    with an error for [Runtime.enable]; and a body that throws. *)
Definition setup_responses : list event :=
  [ws_message (JObj [("id", JNum 1); ("result", JObj [])]);
   ws_message (JObj [("id", JNum 2); ("result", JObj [])]);
   ws_message (JObj [("id", JNum 3); ("result", JObj [])])].

Definition setup_fails : list event :=
  [ws_message (JObj [("id", JNum 1); ("result", JObj [])]);
   ws_message (JObj [("id", JNum 2);
                     ("error", JObj [("message", JStr "Runtime is busy")])])].

Definition body_returns : Target.t -> async unit := fun _ => mret tt.

Definition body_throws : Target.t -> async unit :=
  fun _ inbox st => Threw (Error (Lit "click failed: not-found")) inbox st.

(** A body that navigates and waits for the answer, as the open command
    does, and the events of a session in which the call is answered. *)
Definition body_navigates : Target.t -> async unit :=
  fun _ =>
    await_send "Page.navigate" (JObj [("url", JStr "http://127.0.0.1:8080")]) ;;
    mret tt.

Definition navigate_responses : list event :=
  setup_responses ++
  [ws_message (JObj [("id", JNum 4); ("result", JObj [("frameId", JStr "F")])])].

(** Whether the channel of the client is closing or closed. *)
Definition channel_closing (st : state) : bool :=
  match CDPClient.ws (client st) with
  | Some w => (WebSocket.readyState w =? 2)%Z || (WebSocket.readyState w =? 3)%Z
  | None => false
  end.

(** What [close()] has to have done between the end of the [try] block
    ([st_end]) and the exit ([st]), in the words of the specification: the
    client holds the socket it held, with what was written on it; that socket
    is CLOSING if it was OPEN and is in the state it was in otherwise; and
    nothing else of the client, of the promises or of the handler calls has
    changed. *)
Definition closed_after (st_end st : state) : Prop :=
  CDPClient.wsUrl (client st) = CDPClient.wsUrl (client st_end) /\
  CDPClient.id (client st) = CDPClient.id (client st_end) /\
  CDPClient.pending (client st) = CDPClient.pending (client st_end) /\
  CDPClient.eventHandlers (client st) = CDPClient.eventHandlers (client st_end) /\
  promises st = promises st_end /\
  invoked st = invoked st_end /\
  (CDPClient.ws (client st_end) = None -> CDPClient.ws (client st) = None) /\
  forall w, CDPClient.ws (client st_end) = Some w ->
    exists w', CDPClient.ws (client st) = Some w' /\
               WebSocket.sent w' = WebSocket.sent w /\
               (WebSocket.readyState w = 1%Z -> WebSocket.readyState w' = 2%Z) /\
               (WebSocket.readyState w <> 1%Z ->
                WebSocket.readyState w' = WebSocket.readyState w).

(** A body that acts on the client through its methods and the events of the
    socket only: from a state that a connection passes through, it returns or
    throws in such a state. *)
Definition through_client (fn : Target.t -> async unit) : Prop :=
  forall target inbox st st',
    reachable st -> exit_state (fn target inbox st) = Some st' -> reachable st'.

(** ** Command-line arguments *)

(** [s.slice(n)] for [n] within the string, and [s.startsWith(prefix)]. *)
Fixpoint slice (n : nat) (s : string) : string :=
  match n, s with
  | O, _ => s
  | S n', String _ s' => slice n' s'
  | S _, EmptyString => EmptyString
  end.

Definition startsWith (s prefix : string) : bool := String.prefix prefix s.

Module Args.
Record t : Type := mk {
  flags : Flags.t;
  positional : list string
}.
End Args.

Section parseArgs.

(** [Number(text)] of the runtime, on the texts whose value is an integer. *)
Variable Number : string -> Z.

(** The body of the loop of [parseArgs], on the flags and the positional
    arguments collected so far. *)
Definition parse_part (acc : Args.t) (part : string) : Args.t :=
  let flags := Args.flags acc in
  if startsWith part "--host=" then
    {| Args.flags :=
         {| Flags.host := slice (String.length "--host=") part;
            Flags.port := Flags.port flags;
            Flags.target := Flags.target flags;
            Flags.urlContains := Flags.urlContains flags;
            Flags.titleContains := Flags.titleContains flags |};
       Args.positional := Args.positional acc |}
  else if startsWith part "--port=" then
    {| Args.flags :=
         {| Flags.host := Flags.host flags;
            Flags.port := Number (slice (String.length "--port=") part);
            Flags.target := Flags.target flags;
            Flags.urlContains := Flags.urlContains flags;
            Flags.titleContains := Flags.titleContains flags |};
       Args.positional := Args.positional acc |}
  else if startsWith part "--target=" then
    {| Args.flags :=
         {| Flags.host := Flags.host flags;
            Flags.port := Flags.port flags;
            Flags.target := Some (slice (String.length "--target=") part);
            Flags.urlContains := Flags.urlContains flags;
            Flags.titleContains := Flags.titleContains flags |};
       Args.positional := Args.positional acc |}
  else if startsWith part "--url-contains=" then
    {| Args.flags :=
         {| Flags.host := Flags.host flags;
            Flags.port := Flags.port flags;
            Flags.target := Flags.target flags;
            Flags.urlContains :=
              Some (slice (String.length "--url-contains=") part);
            Flags.titleContains := Flags.titleContains flags |};
       Args.positional := Args.positional acc |}
  else if startsWith part "--title-contains=" then
    {| Args.flags :=
         {| Flags.host := Flags.host flags;
            Flags.port := Flags.port flags;
            Flags.target := Flags.target flags;
            Flags.urlContains := Flags.urlContains flags;
            Flags.titleContains :=
              Some (slice (String.length "--title-contains=") part) |};
       Args.positional := Args.positional acc |}
  else
    {| Args.flags := flags;
       Args.positional := Args.positional acc ++ [part] |}.

(** [parseArgs(argv)] *)
Definition parseArgs (argv : list string) : Args.t :=
  foldl parse_part
        {| Args.flags := default_flags; Args.positional := [] |}
        argv.

End parseArgs.

(** The value that [part] gives to the flag written [prefix], if it is that
    flag; whether [part] is one of the five flags; and the value of the last
    occurrence of a flag among the arguments. *)
Definition flag_value (prefix part : string) : option string :=
  if startsWith part prefix
  then Some (slice (String.length prefix) part)
  else None.

Definition is_flag (part : string) : bool :=
  startsWith part "--host=" || startsWith part "--port=" ||
  startsWith part "--target=" || startsWith part "--url-contains=" ||
  startsWith part "--title-contains=".

Definition last_value (prefix : string) (argv : list string) : option string :=
  last (omap (flag_value prefix) argv).

(** A stand-in for [Number] on texts of decimal digits, for the examples. *)
Definition digit_value (c : Ascii.ascii) : Z :=
  (Z.of_nat (Ascii.nat_of_ascii c) - 48)%Z.

Fixpoint decimal_from (acc : Z) (s : string) : Z :=
  match s with
  | EmptyString => acc
  | String c s' => decimal_from (10 * acc + digit_value c)%Z s'
  end.

Definition decimal : string -> Z := decimal_from 0.

(** ** Screenshot names *)

Module ParsedPath.
(** The parts of [path.parse(p)] that the program reads. *)
Record t : Type := mk {
  dir : string;
  name : string;
  ext : string
}.
End ParsedPath.

(** [String(i).padStart(3, '0')] *)
Definition padStart3 (s : string) : string :=
  match String.length s with
  | 0 => "000" +:+ s
  | 1 => "00" +:+ s
  | 2 => "0" +:+ s
  | _ => s
  end%nat.

Definition suffix (i : nat) : string := padStart3 (pretty i).

Definition no_free_name (abs : string) : exn :=
  Error (Lit ("Could not find free screenshot name near " +:+ abs)).

Section nextScreenshotPath.

(** [path.resolve], [path.parse] and [path.join] of the runtime, and
    [fs.existsSync] on the file system as it is during the call. *)
Variable resolve : string -> string.
Variable parse : string -> ParsedPath.t.
Variable join : string -> string -> string.
Variable existsSync : string -> bool.

(** The candidate numbered [i] for the path [abs]. *)
Definition candidate (abs : string) (i : nat) : string :=
  let parsed := parse abs in
  let ext :=
    match ParsedPath.ext parsed with
    | EmptyString => ".png"
    | ext => ext
    end in
  let base := ParsedPath.name parsed in
  join (ParsedPath.dir parsed) (base +:+ "-" +:+ suffix i +:+ ext).

(** The loop [for (let i = ...; i <= 9999; i += 1)], with [count] rounds left
    from [i] on. *)
Fixpoint search (abs : string) (i count : nat) : option string :=
  match count with
  | O => None
  | S count' =>
      if existsSync (candidate abs i) then search abs (S i) count'
      else Some (candidate abs i)
  end.

(** [nextScreenshotPath(outPath)] *)
Definition nextScreenshotPath (outPath : string) : completion string :=
  let abs := resolve outPath in
  if negb (existsSync abs) then Normal abs
  else
    match search abs 1 (N.to_nat 9999) with
    | Some free => Normal free
    | None => Throw (no_free_name abs)
    end.

End nextScreenshotPath.

(** ** Listing the targets *)





(** ** Definitions used by the further statements *)

(** The handlers registered for [method] by the calls of [on] in a history,
    in the order of the calls. *)
Fixpoint registered (method : string) (history : list action) : list handler :=
  match history with
  | [] => []
  | call_on method' h :: rest =>
      if String.eqb method' method then h :: registered method rest
      else registered method rest
  | _ :: rest => registered method rest
  end.

(** The three setup calls of [withClient] as they are written on a fresh
    connection. *)
Definition enable (id : Z) (method : string) (p : promise) : write :=
  mk_write (JObj [("id", JNum id); ("method", JStr method);
                  ("params", empty_object)]) id p.

Definition setup_writes : list write :=
  [enable 1 "Page.enable" 0%nat; enable 2 "Runtime.enable" 1%nat;
   enable 3 "Log.enable" 2%nat].

(** A discovery response with a worker before the pages A and B. *)
Definition target_worker : Target.t :=
  {| Target.id := "W"; Target.type := "service_worker";
     Target.url := Some "http://x/sw.js"; Target.title := None;
     Target.webSocketDebuggerUrl := Some "ws://127.0.0.1:9222/devtools/page/W" |}.

(** A history of the log command: two handlers for console calls around one
    for exceptions and a call. *)
Definition logs_history : list action :=
  [call_on "Runtime.consoleAPICalled" 0%nat;
   call_on "Runtime.exceptionThrown" 1%nat;
   call_send "Runtime.evaluate" empty_object;
   call_on "Runtime.consoleAPICalled" 2%nat].

Definition frame_console_no_params : json :=
  JObj [("method", JStr "Runtime.consoleAPICalled")].

(** A directory for the examples: every path is [shots/state.png], paths are
    joined with a slash, and the files in [taken] exist. *)
Definition shots_parse (p : string) : ParsedPath.t :=
  {| ParsedPath.dir := "shots"; ParsedPath.name := "state";
     ParsedPath.ext := ".png" |}.

Definition slash_join (dir name : string) : string := dir +:+ "/" +:+ name.

Definition among (taken : list string) (p : string) : bool :=
  existsb (String.eqb p) taken.

(** The actions that can settle the call written as number [k] with the id
    [id]: a frame with that id, the close of the connection, and the failure
    of that write. *)
Definition may_settle (k : nat) (id : Z) (a : action) : bool :=
  match a with
  | incoming (ws_message msg) =>
      match prop msg "id" with
      | Some (JNum n) => (n =? id)%Z
      | _ => false
      end
  | incoming ws_closed => true
  | incoming (ws_send_error j _) => (j =? k)%nat
  | _ => false
  end.
(** * Properties *)

(** ** Substring search *)

Lemma prefix_nil (s : string) : String.prefix EmptyString s = true.
Proof. by destruct s. Qed.

Lemma prefix_app (a b : string) :
  String.prefix a b = true <-> exists c, b = a +:+ c.
Proof.
  revert b. induction a as [|x a IH]; intros b; simpl.
  - rewrite prefix_nil. split; [eauto | done].
  - destruct b as [|y b]; simpl.
    + split; [done | by intros [c Hc]].
    + destruct (Ascii.ascii_dec x y) as [->|Hxy].
      * rewrite IH. split; intros [c Hc]; exists c.
        -- by rewrite Hc.
        -- by injection Hc.
      * split; [done | intros [c Hc]; by injection Hc].
Qed.

(** [includes] is the search for a contiguous occurrence. *)
Lemma includes_occurs (hay needle : string) :
  includes hay needle = true <->
  exists before after, hay = before +:+ needle +:+ after.
Proof.
  induction hay as [|x hay IH]; cbn [includes].
  - rewrite orb_false_r, prefix_app. split.
    + intros [c Hc]. by exists EmptyString, c.
    + intros (before & after & H). destruct before as [|y before].
      * eauto.
      * discriminate H.
  - rewrite orb_true_iff, prefix_app, IH. split.
    + intros [[c Hc] | (before & after & H)].
      * by exists EmptyString, c.
      * exists (String x before), after. by rewrite H.
    + intros (before & after & H). destruct before as [|y before].
      * left. eauto.
      * right. exists before, after. by injection H.
Qed.

Lemma includes_nil (hay : string) : includes hay EmptyString = true.
Proof. destruct hay; simpl; by rewrite ?prefix_nil. Qed.

(** The comparison is exact: a different letter case does not match. *)
Example includes_case_sensitive :
  includes "http://y" "y" = true /\ includes "http://y" "Y" = false.
Proof. split; reflexivity. Qed.

(** ** Target selection *)

Section list_facts.
Context {A : Type}.
Implicit Types (f g : A -> bool) (l : list A).

Lemma filter_twice f g l :
  List.filter f (List.filter g l) = List.filter (fun x => g x && f x) l.
Proof.
  induction l as [|x l IH]; simpl; [done|].
  destruct (g x); simpl; [|done]. destruct (f x); by rewrite IH.
Qed.

Lemma filter_all f l : (forall x, f x = true) -> List.filter f l = l.
Proof.
  intros Hf. induction l as [|x l IH]; simpl; [done|].
  by rewrite Hf, IH.
Qed.

Lemma filter_head_find f l :
  match List.filter f l with [] => None | x :: _ => Some x end
  = List.find f l.
Proof.
  induction l as [|x l IH]; simpl; [done|]. by destruct (f x).
Qed.

Lemma find_first f l x :
  List.find f l = Some x ->
  exists i, l !! i = Some x /\ f x = true /\
            forall j y, (j < i)%nat -> l !! j = Some y -> f y = false.
Proof.
  induction l as [|a l IH]; simpl; [done|].
  destruct (f a) eqn:Hfa.
  - intros [= <-]. exists 0%nat. repeat split; [done|]. intros; lia.
  - intros (i & Hi & Hfx & Hlt)%IH. exists (S i). repeat split; [done..|].
    intros [|j] y Hj Hy; simpl in Hy.
    + congruence.
    + apply (Hlt j); [lia | done].
Qed.

Lemma find_nothing f l :
  List.find f l = None <-> forall x, x ∈ l -> f x = false.
Proof.
  induction l as [|a l IH]; simpl.
  - split; [|done]. intros _ x Hx. by apply elem_of_nil in Hx.
  - destruct (f a) eqn:Hfa.
    + split; [done|]. intros H. specialize (H a (list_elem_of_here _ _)).
      congruence.
    + rewrite IH. split.
      * intros H x [->|Hx]%elem_of_cons; auto.
      * intros H x Hx. apply H. by apply elem_of_cons; right.
Qed.

Lemma each_of_two (P : A -> Prop) (a b : A) :
  P a -> P b -> forall x, x ∈ [a; b] -> P x.
Proof.
  intros Ha Hb x Hx.
  apply elem_of_cons in Hx as [Hx|Hx]; [by subst|].
  apply elem_of_cons in Hx as [Hx|Hx]; [by subst|].
  by apply elem_of_nil in Hx.
Qed.
End list_facts.

(** A filter of the code, taken only when the flag is truthy, keeps the same
    targets as the filter of the specification, taken when the flag is set:
    every string contains the empty string. *)
Lemma optional_filter (field : Target.t -> option string) (part : option string)
    (l : list Target.t) :
  match truthy_string part with
  | Some part => List.filter (fun t => includes (string_or_empty (field t)) part) l
  | None => l
  end = List.filter (fun t => contains (field t) part) l.
Proof.
  destruct part as [[|c s]|]; simpl.
  - symmetry. apply filter_all. intros t. apply includes_nil.
  - done.
  - symmetry. by apply filter_all.
Qed.

Lemma pickTarget_filters (targets : list Target.t) (flags : Flags.t) :
  targets <> [] ->
  truthy_string (Flags.target flags) = None ->
  pickTarget targets flags =
  match first_surviving targets flags with
  | Some t => Normal t
  | None => Throw no_targets_matched
  end.
Proof.
  intros Hne Hid. unfold pickTarget, first_surviving. rewrite Hid.
  destruct targets as [|t0 targets]; [done|].
  cbn [length Nat.eqb].
  rewrite (optional_filter Target.url), (optional_filter Target.title).
  rewrite filter_twice. fold (survives flags).
  rewrite <- filter_head_find.
  change (fun t => contains (Target.url t) (Flags.urlContains flags)
                   && contains (Target.title t) (Flags.titleContains flags))
    with (survives flags).
  by destruct (List.filter (survives flags) (t0 :: targets)).
Qed.

Lemma first_surviving_first (targets : list Target.t) (flags : Flags.t)
    (t : Target.t) :
  first_surviving targets flags = Some t ->
  first_with (fun t => survives flags t = true) targets t.
Proof.
  intros (i & Hi & Ht & Hlt)%find_first. exists i. repeat split; [done..|].
  intros j t' Hj Ht'. rewrite (Hlt j t' Hj Ht'). done.
Qed.

(** C6.  On a non-empty list and without an exact id, [pickTarget] keeps the
    targets whose url contains [urlContains] and whose title contains
    [titleContains] (each test only when the flag is set, both together when
    both are), and returns the first target of the list that survives, by
    position in the list; it throws only when none survives.  The result is a
    function of the list and the flags alone. *)
Theorem pickTarget_first_surviving (targets : list Target.t) (flags : Flags.t) :
  targets <> [] ->
  truthy_string (Flags.target flags) = None ->
  (forall t, survives flags t = true <->
     contains (Target.url t) (Flags.urlContains flags) = true /\
     contains (Target.title t) (Flags.titleContains flags) = true) /\
  (forall t, pickTarget targets flags = Normal t <->
     first_with (fun t => survives flags t = true) targets t) /\
  (forall t, t ∈ targets -> survives flags t = true ->
     exists t0, pickTarget targets flags = Normal t0).
Proof.
  intros Hne Hid. rewrite (pickTarget_filters _ _ Hne Hid).
  split; [|split].
  - intros t. unfold survives. by rewrite andb_true_iff.
  - intros t. split.
    + destruct (first_surviving targets flags) as [t0|] eqn:Hfind; [|done].
      intros [= <-]. by apply first_surviving_first.
    + intros (i & Hi & Ht & Hlt).
      destruct (first_surviving targets flags) as [t0|] eqn:Hfind.
      * apply first_surviving_first in Hfind as (i0 & Hi0 & Ht0 & Hlt0).
        destruct (Nat.lt_trichotomy i i0) as [Hlt'|[->|Hgt]].
        -- by destruct (Hlt0 i t Hlt' Hi).
        -- congruence.
        -- by destruct (Hlt i0 t0 Hgt Hi0).
      * apply find_nothing with (x := t) in Hfind.
        -- congruence.
        -- by eapply list_elem_of_lookup_2.
  - intros t Hin Ht.
    destruct (first_surviving targets flags) as [t0|] eqn:Hfind; [eauto|].
    apply find_nothing with (x := t) in Hfind; [congruence | done].
Qed.

(** Scenario A: of the targets A and B, the filter [urlContains: "y"]
    selects B. *)
Lemma pickTarget_first_surviving_scenario_A :
  pickTarget [target_A; target_B]
             (with_filters (Some "y") None default_flags) = Normal target_B.
Proof.
  apply (pickTarget_first_surviving
           [target_A; target_B] (with_filters (Some "y") None default_flags));
    [done | reflexivity |].
  exists 1%nat. repeat split.
  intros [|j] t' Hj Ht'; [|lia]. injection Ht' as <-. discriminate.
Defined.

Lemma pickTarget_exact (targets : list Target.t) (flags : Flags.t)
    (exactId : string) :
  targets <> [] ->
  truthy_string (Flags.target flags) = Some exactId ->
  pickTarget targets flags =
  match List.find (fun t => String.eqb (Target.id t) exactId) targets with
  | Some exact => Normal exact
  | None => Throw (target_id_not_found exactId)
  end.
Proof.
  intros Hne Hid. unfold pickTarget. rewrite Hid.
  by destruct targets.
Qed.

Lemma find_id_first (targets : list Target.t) (exactId : string) (t : Target.t) :
  List.find (fun t => String.eqb (Target.id t) exactId) targets = Some t ->
  first_with (fun t => Target.id t = exactId) targets t.
Proof.
  intros (i & Hi & Ht & Hlt)%find_first. exists i.
  apply String.eqb_eq in Ht. repeat split; [done..|].
  intros j t' Hj Ht'. apply String.eqb_neq. eauto.
Qed.

Lemma find_id_none (targets : list Target.t) (exactId : string) :
  List.find (fun t => String.eqb (Target.id t) exactId) targets = None <->
  forall t, t ∈ targets -> Target.id t <> exactId.
Proof. rewrite find_nothing. by setoid_rewrite String.eqb_neq. Qed.

(** C7, as stated, fails on the empty list: with an exact id and no target at
    all, the error is the one of the empty list, not the one of the unknown
    id. *)
Lemma pickTarget_exact_id_empty_list :
  truthy_string (Flags.target (with_target "A" default_flags)) = Some "A" /\
  pickTarget [] (with_target "A" default_flags) = Throw no_page_targets /\
  no_page_targets <> target_id_not_found "A".
Proof. repeat split; discriminate. Qed.

(** C7, amended.  On a non-empty list and with an exact id (a non-empty
    string), [pickTarget] does not look at the substring filters; it returns
    the first target whose id is the exact id, which is the only one when no
    other target has that id, and it throws [Target id not found: <id>] when no
    target has it. *)
Theorem pickTarget_exact_id (targets : list Target.t) (flags : Flags.t)
    (exactId : string) :
  targets <> [] ->
  truthy_string (Flags.target flags) = Some exactId ->
  (forall urlContains titleContains,
     pickTarget targets (with_filters urlContains titleContains flags)
     = pickTarget targets flags) /\
  (forall t, pickTarget targets flags = Normal t <->
     first_with (fun t => Target.id t = exactId) targets t) /\
  (forall t, t ∈ targets -> Target.id t = exactId ->
     (forall t', t' ∈ targets -> Target.id t' = exactId -> t' = t) ->
     pickTarget targets flags = Normal t) /\
  (pickTarget targets flags = Throw (target_id_not_found exactId) <->
     forall t, t ∈ targets -> Target.id t <> exactId).
Proof.
  intros Hne Hid.
  assert (Hpick : forall t, pickTarget targets flags = Normal t <->
            first_with (fun t => Target.id t = exactId) targets t).
  { intros t. rewrite (pickTarget_exact _ _ _ Hne Hid). split.
    - destruct (List.find _ targets) as [t0|] eqn:Hfind; [|done].
      intros [= <-]. by apply find_id_first.
    - intros (i & Hi & Ht & Hlt).
      destruct (List.find _ targets) as [t0|] eqn:Hfind.
      + apply find_id_first in Hfind as (i0 & Hi0 & Ht0 & Hlt0).
        destruct (Nat.lt_trichotomy i i0) as [Hlt'|[->|Hgt]].
        * by destruct (Hlt0 i t Hlt' Hi).
        * congruence.
        * by destruct (Hlt i0 t0 Hgt Hi0).
      + rewrite find_id_none in Hfind. destruct (Hfind t); [|done].
        by eapply list_elem_of_lookup_2. }
  split; [|split; [|split]].
  - intros u ti.
    by rewrite (pickTarget_exact _ _ _ Hne Hid),
               (pickTarget_exact _ (with_filters u ti flags) _ Hne Hid).
  - done.
  - intros t Hin Ht Honly. rewrite (pickTarget_exact _ _ _ Hne Hid).
    destruct (List.find _ targets) as [t0|] eqn:Hfind.
    + apply find_id_first in Hfind as (i0 & Hi0 & Ht0 & _).
      f_equal. apply Honly; [|done]. by eapply list_elem_of_lookup_2.
    + rewrite find_id_none in Hfind. by destruct (Hfind t).
  - rewrite (pickTarget_exact _ _ _ Hne Hid), <- find_id_none.
    destruct (List.find _ targets); split; congruence.
Qed.

(** With the exact id B and a url filter that only A passes, B is selected;
    with the exact id C, which no target has, the error names C. *)
Lemma pickTarget_exact_id_ignores_filters :
  pickTarget [target_A; target_B]
             (with_filters (Some "x") (Some "Foo") (with_target "B" default_flags))
  = pickTarget [target_A; target_B] (with_target "B" default_flags) /\
  pickTarget [target_A; target_B] (with_target "B" default_flags)
  = Normal target_B /\
  pickTarget [target_A; target_B] (with_target "C" default_flags)
  = Throw (Error (Lit "Target id not found: C")).
Proof.
  destruct (pickTarget_exact_id [target_A; target_B]
              (with_target "B" default_flags) "B")
    as (Hfilters & HB & Hunique & HB'); [done | reflexivity |].
  destruct (pickTarget_exact_id [target_A; target_B]
              (with_target "C" default_flags) "C")
    as (HC & HC' & HC'' & Hnone); [done | reflexivity |].
  split; [apply Hfilters | split].
  - apply Hunique;
      [apply list_elem_of_further, list_elem_of_here | reflexivity |].
    by apply (each_of_two (fun t' => Target.id t' = "B" -> t' = target_B)).
  - apply Hnone. by apply (each_of_two (fun t' => Target.id t' <> "C")).
Defined.

(** C8.  [pickTarget] throws [No page targets found] on the empty list,
    whatever the flags; on a non-empty list without an exact id it throws
    [No targets matched the provided filters] exactly when no target passes
    the substring filters. *)
Theorem pickTarget_errors (targets : list Target.t) (flags : Flags.t) :
  (targets = [] -> pickTarget targets flags = Throw no_page_targets) /\
  (targets <> [] -> truthy_string (Flags.target flags) = None ->
     (pickTarget targets flags = Throw no_targets_matched <->
      forall t, t ∈ targets -> survives flags t = false)).
Proof.
  split.
  - by intros ->.
  - intros Hne Hid. rewrite (pickTarget_filters _ _ Hne Hid).
    unfold first_surviving. rewrite <- find_nothing.
    destruct (List.find _ targets); split; congruence.
Qed.

(** Scenario B: the empty list with the exact id, with a filter and with no
    flag; and a list whose two targets fail the filter. *)
Lemma pickTarget_errors_scenario_B :
  pickTarget [] (with_target "A" default_flags)
  = Throw (Error (Lit "No page targets found")) /\
  pickTarget [] (with_filters (Some "y") None default_flags)
  = Throw (Error (Lit "No page targets found")) /\
  pickTarget [] default_flags = Throw (Error (Lit "No page targets found")) /\
  pickTarget [target_A; target_B] (with_filters (Some "z") None default_flags)
  = Throw (Error (Lit "No targets matched the provided filters")).
Proof.
  split; [|split; [|split]].
  - by apply (pickTarget_errors [] (with_target "A" default_flags)).
  - by apply (pickTarget_errors [] (with_filters (Some "y") None default_flags)).
  - by apply (pickTarget_errors [] default_flags).
  - apply (pickTarget_errors [target_A; target_B]
             (with_filters (Some "z") None default_flags));
      [done | reflexivity |].
    by apply (each_of_two
                (fun t' => survives (with_filters (Some "z") None default_flags) t'
                           = false)).
Defined.

(** ** Promises *)

Section settle_facts.
Implicit Types (p q : promise) (s : settlement) (ps : list settlement).

Lemma length_settle p s ps : length (settle p s ps) = length ps.
Proof.
  unfold settle. destruct (ps !! p) as [[]|]; by rewrite ?length_insert.
Qed.

Lemma settle_unsettled p s ps :
  ps !! p = Some Unsettled -> settle p s ps !! p = Some s.
Proof.
  intros Hp. unfold settle. rewrite Hp.
  apply list_lookup_insert_eq. by eapply lookup_lt_Some.
Qed.

Lemma settle_other p q s ps : p <> q -> settle p s ps !! q = ps !! q.
Proof.
  intros Hpq. unfold settle.
  destruct (ps !! p) as [[]|]; by rewrite ?list_lookup_insert_ne.
Qed.

(** A settled promise keeps its settlement. *)
Lemma settle_settled p q s s' ps :
  ps !! q = Some s' -> s' <> Unsettled -> settle p s ps !! q = Some s'.
Proof.
  intros Hq Hs'. destruct (decide (p = q)) as [->|Hpq].
  - unfold settle. rewrite Hq. by destruct s'.
  - by rewrite settle_other.
Qed.

(** After a promise has been settled it is not unsettled. *)
Lemma settle_settles p s ps :
  s <> Unsettled -> settle p s ps !! p <> Some Unsettled.
Proof.
  intros Hs. unfold settle. destruct (ps !! p) as [s0|] eqn:Hp.
  - destruct s0; rewrite ?Hp; try done.
    rewrite list_lookup_insert_eq by (by eapply lookup_lt_Some).
    congruence.
  - by rewrite Hp.
Qed.
End settle_facts.

(** ** The 'message' handler *)

Lemma pending_get_Some (id : json) (c : CDPClient.t) (cb : promise) :
  pending_get id c = Some cb ->
  exists n, id = JNum n /\ CDPClient.pending c !! n = Some cb.
Proof. destruct id; try done. eauto. Qed.

Lemma foldl_invoke (params : json) (handlers : list handler) (st : state) :
  foldl (invoke params) st handlers =
  {| client := client st; promises := promises st;
     invoked := invoked st ++ map (fun h => (h, params)) handlers |}.
Proof.
  revert st. induction handlers as [|h handlers IH]; intros st; simpl.
  - rewrite app_nil_r. by destruct st.
  - rewrite IH. simpl. by rewrite <- app_assoc.
Qed.

Lemma truthy_value_Some (o : option json) (v : json) :
  truthy_value o = Some v <-> o = Some v /\ truthy v = true.
Proof.
  unfold truthy_value. destruct o as [v'|].
  - destruct (truthy v') eqn:Hv'.
    + split; [by intros [= ->] | by intros [[= ->] _]].
    + split; [done | intros [[= ->] Hv]; congruence].
  - split; [done | by intros [? _]].
Qed.

(** A frame with a truthy id that is the key of no pending call. *)
Lemma on_message_unmatched (msg id : json) (st : state) :
  truthy_value (prop msg "id") = Some id ->
  pending_get id (client st) = None ->
  on_message msg st = Normal st.
Proof.
  intros Hid Hget. unfold on_message. rewrite Hid, Hget.
  by destruct msg.
Qed.

(** A frame with a truthy id that is the key of a pending call. *)
Lemma on_message_matched (msg : json) (n : Z) (cb : promise) (st : state) :
  truthy_value (prop msg "id") = Some (JNum n) ->
  CDPClient.pending (client st) !! n = Some cb ->
  on_message msg st =
  Normal {| client := set_pending (delete n (CDPClient.pending (client st)))
                                  (client st);
            promises := settle cb (settlement_of msg) (promises st);
            invoked := invoked st |}.
Proof.
  intros Hid Hget. unfold on_message, settlement_of. rewrite Hid. simpl.
  rewrite Hget. destruct msg; try done.
  by destruct (truthy_value (prop _ "error")).
Qed.

(** A frame without a truthy id. *)
Lemma on_message_event (msg : json) (st : state) :
  msg <> JNull ->
  truthy_value (prop msg "id") = None ->
  on_message msg st =
  Normal
    match truthy_value (prop msg "method") with
    | Some method =>
        match handlers_get method (client st) with
        | Some handlers =>
            foldl (invoke (or_else (prop msg "params") empty_object)) st handlers
        | None => st
        end
    | None => st
    end.
Proof.
  intros Hnull Hid. unfold on_message. rewrite Hid.
  destruct msg; try done;
    by repeat match goal with |- context [match ?x with _ => _ end] =>
                destruct x end.
Qed.

(** C10.  A frame with a truthy [id] is handled as a response and nothing
    else: whether or not the id is that of a pending call, and whatever
    [method] the frame names, no event handler is invoked and the handler
    table is left as it was. *)
Theorem id_is_tested_before_method (msg id : json) (st : state) :
  truthy_value (prop msg "id") = Some id ->
  exists st',
    on_message msg st = Normal st' /\
    invoked st' = invoked st /\
    CDPClient.eventHandlers (client st')
    = CDPClient.eventHandlers (client st).
Proof.
  intros Hid.
  destruct (pending_get id (client st)) as [cb|] eqn:Hget.
  - apply pending_get_Some in Hget as (n & -> & Hn).
    rewrite (on_message_matched _ _ _ _ Hid Hn). eauto.
  - rewrite (on_message_unmatched _ _ _ Hid Hget). eauto.
Qed.

(** A frame with the id 1 and the method of a registered handler, on a client
    where call 1 is pending: the handler is not invoked. *)
Lemma id_is_tested_before_method_example :
  exists st',
    on_message frame_id_and_method listening = Normal st' /\
    invoked st' = [] /\
    CDPClient.eventHandlers (client st')
    = CDPClient.eventHandlers (client listening).
Proof.
  exact (id_is_tested_before_method frame_id_and_method (JNum 1) listening
           eq_refl).
Defined.

(** The same frame without its id is an event, and the handler is invoked. *)
Example event_frame_invokes_handler :
  exists st',
    on_message frame_event listening = Normal st' /\
    invoked st' = [(0%nat, JObj [])].
Proof. eexists. split; reflexivity. Qed.

(** The frame [{"id":0,"method":"Runtime.consoleAPICalled","params":{}}] on
    a client where call 1 is pending: the id 0 is the key of no pending
    entry, and yet the frame is not dropped, the handler registered for its
    method is called. *)
Lemma falsy_id_frame_is_dispatched :
  prop frame_id_0 "id" = Some (JNum 0) /\
  pending_get (JNum 0) (client listening) = None /\
  invoked listening = [] /\
  exists st',
    on_message frame_id_0 listening = Normal st' /\
    invoked st' = [(0%nat, JObj [])].
Proof.
  split; [reflexivity|]. split; [reflexivity|]. split; [reflexivity|].
  eexists. split; reflexivity.
Qed.

(** C4.  A frame whose id is truthy and is the key of no pending call, and
    an event frame (no truthy id) whose method is missing or has no handler,
    return without an exception and leave the whole state as it was.  So a
    frame with a stray id that arrives before a response has no effect on
    what the response does.  A frame whose id is there but falsy is not
    looked up in [pending]: it is an event frame, and the handlers registered
    for its method are called with its [params]; the message handler itself
    touches neither the client nor the promises. *)
Theorem unmatched_frames_are_dropped (msg : json) (st : state) :
  (forall id,
     truthy_value (prop msg "id") = Some id ->
     pending_get id (client st) = None ->
     on_message msg st = Normal st) /\
  (msg <> JNull ->
   truthy_value (prop msg "id") = None ->
   (forall method, truthy_value (prop msg "method") = Some method ->
                   handlers_get method (client st) = None) ->
   on_message msg st = Normal st) /\
  (forall id response,
     truthy_value (prop msg "id") = Some id ->
     pending_get id (client st) = None ->
     run [incoming (ws_message msg); incoming (ws_message response)] st
     = on_message response st) /\
  (forall id,
     prop msg "id" = Some id -> truthy id = false ->
     exists st',
       on_message msg st = Normal st' /\
       client st' = client st /\
       promises st' = promises st /\
       invoked st' =
         invoked st ++
         map (fun h => (h, or_else (prop msg "params") empty_object))
             (handlers_for msg st)).
Proof.
  split; [|split; [|split]].
  - intros id Hid Hget. by apply (on_message_unmatched msg id).
  - intros Hnull Hid Hnone. rewrite (on_message_event _ _ Hnull Hid).
    destruct (truthy_value (prop msg "method")) as [method|] eqn:Hm; [|done].
    by rewrite (Hnone method eq_refl).
  - intros id response Hid Hget. simpl.
    rewrite (on_message_unmatched _ _ _ Hid Hget).
    by destruct (on_message response st).
  - intros id Hid Hfalsy.
    assert (msg <> JNull) as Hnull by (by intros ->).
    assert (truthy_value (prop msg "id") = None) as Hnone.
    { unfold truthy_value. by rewrite Hid, Hfalsy. }
    rewrite (on_message_event _ _ Hnull Hnone). unfold handlers_for.
    eexists. split; [reflexivity|].
    destruct (truthy_value (prop msg "method")) as [method|].
    + destruct (handlers_get method (client st)) as [handlers|]; simpl.
      * by rewrite foldl_invoke.
      * by rewrite app_nil_r.
    + simpl. by rewrite app_nil_r.
Qed.

(** Scenario C: call 1 is pending; [{"id":99,"result":{}}] changes nothing,
    and the response that follows resolves the call to [{"value":42}].  The
    frame with the id 0 calls the handler of its method and leaves call 1
    pending. *)
Lemma unmatched_frames_are_dropped_scenario_C :
  on_message frame_stray one_call = Normal one_call /\
  (exists st',
     run [incoming (ws_message frame_stray); incoming (ws_message frame_value_42)]
         one_call = Normal st' /\
     promises st' !! 0%nat = Some (Fulfilled (JObj [("value", JNum 42)])) /\
     CDPClient.pending (client st') = ∅) /\
  exists st',
    on_message frame_id_0 listening = Normal st' /\
    invoked st' = [(0%nat, JObj [])] /\
    CDPClient.pending (client st') !! 1%Z = Some 0%nat.
Proof.
  split; [|split].
  - destruct (unmatched_frames_are_dropped frame_stray one_call)
      as (Hdrop & _).
    exact (Hdrop (JNum 99) eq_refl eq_refl).
  - destruct (unmatched_frames_are_dropped frame_stray one_call)
      as (_ & _ & Hthen & _).
    rewrite (Hthen (JNum 99) frame_value_42 eq_refl eq_refl).
    eexists. split; [reflexivity|]. split; reflexivity.
  - destruct (unmatched_frames_are_dropped frame_id_0 listening)
      as (_ & _ & _ & Hevent).
    destruct (Hevent (JNum 0) eq_refl eq_refl)
      as (st' & Hrun & Hclient & _ & Hinvoked).
    exists st'. split; [exact Hrun|]. split; [exact Hinvoked|].
    rewrite Hclient. reflexivity.
Defined.

(** ** The invariant of a connection *)

Lemma invariant_connected (wsUrl : string) : invariant (connected wsUrl).
Proof. by split. Qed.

(** A step that changes neither the writes, the counter, the pending calls nor
    the promises keeps the invariant. *)
Lemma invariant_same (st st' : state) :
  is_Some (CDPClient.ws (client st')) ->
  sent_of st' = sent_of st ->
  CDPClient.id (client st') = CDPClient.id (client st) ->
  CDPClient.pending (client st') = CDPClient.pending (client st) ->
  promises st' = promises st ->
  invariant st -> invariant st'.
Proof.
  intros Hws Hsent Hid Hpending Hpromises [].
  split; rewrite ?Hsent, ?Hid, ?Hpending, ?Hpromises; done.
Qed.

(** Two writes with the same id are the same write. *)
Lemma invariant_id_inj (st : state) (k k' : nat) (w w' : write) :
  invariant st ->
  sent_of st !! k = Some w -> sent_of st !! k' = Some w' ->
  cb_id w = cb_id w' -> k = k'.
Proof.
  intros Hinv Hk Hk' Heq.
  destruct (inv_ids _ Hinv _ _ Hk) as [Hw _].
  destruct (inv_ids _ Hinv _ _ Hk') as [Hw' _]. lia.
Qed.

(** Removing the entry of a write and settling its promise. *)
Lemma invariant_settle (st st' : state) (k : nat) (w : write) (s : settlement) :
  s <> Unsettled ->
  sent_of st !! k = Some w ->
  is_Some (CDPClient.ws (client st')) ->
  sent_of st' = sent_of st ->
  CDPClient.id (client st') = CDPClient.id (client st) ->
  CDPClient.pending (client st')
  = delete (cb_id w) (CDPClient.pending (client st)) ->
  promises st' = settle (cb_reject w) s (promises st) ->
  invariant st -> invariant st'.
Proof.
  intros Hs Hk Hws Hsent Hid Hpending Hpromises Hinv.
  split; rewrite ?Hsent, ?Hid, ?Hpending, ?Hpromises, ?length_settle;
    try by destruct Hinv.
  - intros i p [Hne Hip]%lookup_delete_Some.
    destruct (inv_pending _ Hinv _ _ Hip) as (Hp & k' & w' & Hk' & <- & <-).
    split; [|eauto].
    rewrite settle_other; [done|]. intros Heq.
    by rewrite (inv_distinct _ Hinv _ _ _ _ Hk Hk' Heq) in Hk; simplify_eq.
  - intros k' w' Hk' Hunsettled.
    destruct (decide (cb_reject w = cb_reject w')) as [Heq|Hne].
    + exfalso. rewrite <- Heq in Hunsettled.
      by apply (settle_settles (cb_reject w) s (promises st) Hs).
    + rewrite settle_other in Hunsettled by done.
      rewrite lookup_delete_ne.
      * by apply (inv_live _ Hinv k').
      * intros Heq. apply Hne.
        by rewrite (invariant_id_inj _ _ _ _ _ Hinv Hk Hk' Heq) in Hk; simplify_eq.
Qed.

(** [send] on a client that has its socket. *)
Lemma send_socket (method : string) (params : json) (st : state) :
  is_Some (CDPClient.ws (client st)) ->
  let id := (CDPClient.id (client st) + 1)%Z in
  let p := length (promises st) in
  let st' := snd (send method params st) in
  fst (send method params st) = p /\
  is_Some (CDPClient.ws (client st')) /\
  sent_of st' =
    sent_of st ++
    [mk_write (JObj [("id", JNum id); ("method", JStr method);
                     ("params", params)]) id p] /\
  CDPClient.id (client st') = id /\
  CDPClient.pending (client st') = <[id := p]> (CDPClient.pending (client st)) /\
  promises st' = promises st ++ [Unsettled] /\
  invoked st' = invoked st /\
  CDPClient.eventHandlers (client st') = CDPClient.eventHandlers (client st).
Proof.
  intros [w Hw]. unfold send, sent_of. rewrite Hw. simpl.
  repeat split; eauto.
Qed.

Lemma invariant_send (method : string) (params : json) (st : state) :
  invariant st -> invariant (snd (send method params st)).
Proof.
  intros Hinv.
  destruct (send_socket method params st (inv_socket _ Hinv))
    as (_ & Hws & Hsent & Hid & Hpending & Hpromises & _).
  set (st' := snd (send method params st)) in *.
  pose proof (inv_counter _ Hinv) as Hcounter.
  split; rewrite ?Hsent, ?Hid, ?Hpending, ?Hpromises, ?length_app; simpl.
  - done.
  - rewrite Hcounter. lia.
  - intros k w [[Hlt Hk]|[-> <-]]%lookup_snoc_Some.
    + by apply (inv_ids _ Hinv).
    + simpl. split; [|done]. rewrite Hcounter. lia.
  - intros k w [[Hlt Hk]|[-> <-]]%lookup_snoc_Some; simpl.
    + pose proof (inv_promises _ Hinv _ _ Hk). lia.
    + lia.
  - intros k k' w w' [[Hlt Hk]|[-> <-]]%lookup_snoc_Some
                     [[Hlt' Hk']|[-> <-]]%lookup_snoc_Some Heq; simpl in Heq.
    + by apply (inv_distinct _ Hinv _ _ _ _ Hk Hk').
    + pose proof (inv_promises _ Hinv _ _ Hk). lia.
    + pose proof (inv_promises _ Hinv _ _ Hk'). lia.
    + done.
  - intros i p. rewrite lookup_insert_Some.
    intros [[<- <-]|[Hne Hip]].
    + split.
      * by rewrite lookup_app_r, Nat.sub_diag.
      * eexists _, _.
        split; [apply lookup_snoc_Some; right; done | done].
    + destruct (inv_pending _ Hinv _ _ Hip) as (Hp & k & w & Hk & Hw).
      split.
      * rewrite lookup_app_l; [done|]. by eapply lookup_lt_Some.
      * exists k, w. split; [|done]. apply lookup_snoc_Some. left.
        split; [|done]. by eapply lookup_lt_Some.
  - intros k w [[Hlt Hk]|[-> <-]]%lookup_snoc_Some; simpl.
    + pose proof (inv_promises _ Hinv _ _ Hk) as Hp.
      rewrite lookup_app_l by done. intros Hunsettled.
      rewrite lookup_insert_ne.
      * by apply (inv_live _ Hinv k).
      * destruct (inv_ids _ Hinv _ _ Hk) as [-> _]. rewrite Hcounter. lia.
    + intros _. by rewrite lookup_insert_eq.
Qed.

(** ** The 'close' handler *)

Lemma reject_all (e : exn) (m : gmap Z promise) (st : state) :
  let st' := map_fold (fun _ cb st => reject cb e st) st m in
  client st' = client st /\ invoked st' = invoked st /\
  rejected_all e m (promises st) (promises st').
Proof.
  apply (map_fold_weak_ind
           (fun r m => client r = client st /\ invoked r = invoked st /\
                       rejected_all e m (promises st) (promises r))).
  - repeat split; eauto. intros i q Hi. by rewrite lookup_empty in Hi.
  - intros i x m0 r Hfresh
           (Hclient & Hinvoked & Hlength & Hkept & Heither & Hrej & Hframe).
    unfold rejected_all, reject; simpl. rewrite length_settle.
    split; [done|]. split; [done|]. split; [done|].
    split; [|split; [|split]].
    + intros q s Hq Hs. apply settle_settled; [|done]. by apply Hkept.
    + intros q Hq. destruct (Heither q Hq) as [Hu|Hr].
      * destruct (decide (x = q)) as [->|Hne].
        -- right. by apply settle_unsettled.
        -- left. by rewrite settle_other.
      * right. by apply settle_settled.
    + intros j q Hj Hq. apply lookup_insert_Some in Hj as [[-> ->]|[Hne Hj]].
      * destruct (Heither q Hq) as [Hu|Hr].
        -- by apply settle_unsettled.
        -- by apply settle_settled.
      * apply settle_settled; [|done]. by apply (Hrej j).
    + intros q Hq. rewrite settle_other.
      * apply Hframe. intros j Hj. apply (Hq j).
        rewrite lookup_insert_ne; [done|]. intros ->. congruence.
      * intros ->. apply (Hq i). by rewrite lookup_insert_eq.
Qed.

Lemma on_close_rejects (st : state) :
  CDPClient.pending (client (on_close st)) = ∅ /\
  CDPClient.ws (client (on_close st)) = CDPClient.ws (client st) /\
  CDPClient.id (client (on_close st)) = CDPClient.id (client st) /\
  CDPClient.eventHandlers (client (on_close st))
  = CDPClient.eventHandlers (client st) /\
  invoked (on_close st) = invoked st /\
  rejected_all websocket_closed (CDPClient.pending (client st))
               (promises st) (promises (on_close st)).
Proof.
  destruct (reject_all websocket_closed (CDPClient.pending (client st)) st)
    as (Hclient & Hinvoked & Hall).
  unfold on_close. simpl. by rewrite Hclient.
Qed.

Lemma invariant_on_close (st : state) : invariant st -> invariant (on_close st).
Proof.
  intros Hinv.
  destruct (on_close_rejects st)
    as (Hpending & Hws & Hid & _ & _ & Hlength & Hkept & _ & Hrej & _).
  assert (sent_of (on_close st) = sent_of st) as Hsent.
  { unfold sent_of. by rewrite Hws. }
  split; rewrite ?Hsent, ?Hid, ?Hpending, ?Hws, ?Hlength;
    try by destruct Hinv.
  intros k w Hk Hunsettled. exfalso.
  pose proof (inv_promises _ Hinv _ _ Hk) as Hlt.
  apply lookup_lt_is_Some_2 in Hlt as [s Hs].
  unfold promise in *.
  destruct s.
  - pose proof (inv_live _ Hinv _ _ Hk Hs) as Hlive.
    specialize (Hrej _ _ Hlive Hs). congruence.
  - specialize (Hkept _ _ Hs ltac:(done)). congruence.
  - specialize (Hkept _ _ Hs ltac:(done)). congruence.
Qed.

(** ** Every reachable state satisfies the invariant *)

Lemma settlement_of_settled (msg : json) : settlement_of msg <> Unsettled.
Proof.
  unfold settlement_of. by destruct (truthy_value (prop msg "error")).
Qed.

Lemma invariant_on_message (msg : json) (st st' : state) :
  invariant st -> on_message msg st = Normal st' -> invariant st'.
Proof.
  intros Hinv Hrun.
  destruct (truthy_value (prop msg "id")) as [id|] eqn:Hid.
  - destruct (pending_get id (client st)) as [cb|] eqn:Hget.
    + apply pending_get_Some in Hget as (n & -> & Hn).
      rewrite (on_message_matched _ _ _ _ Hid Hn) in Hrun.
      injection Hrun as <-.
      destruct (inv_pending _ Hinv _ _ Hn) as (_ & k & w & Hk & <- & <-).
      by apply (invariant_settle st _ k w (settlement_of msg));
        [apply settlement_of_settled | | apply (inv_socket _ Hinv) | ..].
    + rewrite (on_message_unmatched _ _ _ Hid Hget) in Hrun. congruence.
  - assert (msg <> JNull) as Hnull by (by intros ->).
    rewrite (on_message_event _ _ Hnull Hid) in Hrun. injection Hrun as <-.
    destruct (truthy_value (prop msg "method")) as [method|]; [|done].
    destruct (handlers_get method (client st)) as [handlers|]; [|done].
    rewrite foldl_invoke.
    apply (invariant_same st);
      [apply (inv_socket _ Hinv) | reflexivity.. | done].
Qed.

Lemma invariant_socket_closed (st : state) :
  invariant st -> invariant (socket_closed st).
Proof.
  intros Hinv. destruct (inv_socket _ Hinv) as [w Hw].
  apply (invariant_same st); unfold socket_closed, sent_of;
    rewrite ?Hw; simpl; first [done | eauto].
Qed.

Lemma invariant_deliver (ev : event) (st st' : state) :
  invariant st -> deliver ev st = Normal st' -> invariant st'.
Proof.
  intros Hinv Hrun. destruct ev as [msg| |k err]; simpl in Hrun.
  - by eapply invariant_on_message.
  - injection Hrun as <-. by apply invariant_on_close, invariant_socket_closed.
  - destruct (sent_of st !! k) as [w|] eqn:Hk; [|congruence].
    injection Hrun as <-.
    by apply (invariant_settle st _ k w (Rejected err));
      [| | apply (inv_socket _ Hinv) | ..].
Qed.

Lemma invariant_step (a : action) (st st' : state) :
  invariant st -> step a st = Normal st' -> invariant st'.
Proof.
  intros Hinv Hrun. destruct a as [method params|method h| |ev]; simpl in Hrun.
  - injection Hrun as <-. by apply invariant_send.
  - injection Hrun as <-.
    apply (invariant_same st);
      [apply (inv_socket _ Hinv) | reflexivity.. | done].
  - injection Hrun as <-. unfold close.
    destruct (inv_socket _ Hinv) as [w Hw]. rewrite Hw.
    destruct (WebSocket.readyState w =? 1)%Z; [|done].
    apply (invariant_same st); try done.
    unfold sent_of. by rewrite Hw.
  - by eapply invariant_deliver.
Qed.

Lemma invariant_run (history : list action) (st st' : state) :
  invariant st -> run history st = Normal st' -> invariant st'.
Proof.
  revert st. induction history as [|a history IH]; intros st Hinv Hrun.
  - by injection Hrun as <-.
  - simpl in Hrun. destruct (step a st) as [st1|e] eqn:Hstep; [|done].
    eapply IH; [|done]. by eapply invariant_step.
Qed.

Lemma reachable_invariant (st : state) : reachable st -> invariant st.
Proof.
  intros (wsUrl & history & Hrun).
  eapply invariant_run; [apply invariant_connected | done].
Qed.

(** ** Call ids *)

Lemma sent_ids (l : list write) :
  (forall k w, l !! k = Some w -> cb_id w = Z.of_nat (S k)) ->
  cb_id <$> l = Z.of_nat <$> seq 1 (length l).
Proof.
  intros Hids. apply list_eq. intros k.
  rewrite !list_lookup_fmap.
  destruct (l !! k) as [w|] eqn:Hk; simpl.
  - rewrite (lookup_seq_lt 1 (length l) k) by (by eapply lookup_lt_Some).
    simpl. f_equal. by apply Hids.
  - apply lookup_ge_None in Hk. by rewrite lookup_seq_ge.
Qed.

(** C3.  On a connection the counter starts at 0 and [send] increments it
    before use: the calls sent so far carry the ids 1, 2, ..., n in the order
    they were sent, so the first is 1 and the ids increase strictly; the next
    call takes n + 1, which is the key of no pending call.  Every pending
    entry is keyed by the id of the call whose promise it holds, that promise
    is unsettled, and two entries are the same call exactly when they have the
    same id. *)
Theorem call_ids (st : state) :
  reachable st ->
  let n := length (sent_of st) in
  CDPClient.id (client st) = Z.of_nat n /\
  cb_id <$> sent_of st = Z.of_nat <$> seq 1 n /\
  (forall k k' w w', sent_of st !! k = Some w -> sent_of st !! k' = Some w' ->
                     (k < k')%nat -> (cb_id w < cb_id w')%Z) /\
  (forall method params,
     sent_of (snd (send method params st)) =
     sent_of st ++
     [mk_write (JObj [("id", JNum (Z.of_nat (S n))); ("method", JStr method);
                      ("params", params)])
               (Z.of_nat (S n)) (length (promises st))]) /\
  (forall i p, CDPClient.pending (client st) !! i = Some p ->
     (1 <= i <= Z.of_nat n)%Z /\ promises st !! p = Some Unsettled /\
     exists k w, sent_of st !! k = Some w /\ cb_id w = i /\ cb_reject w = p) /\
  (forall i j p q, CDPClient.pending (client st) !! i = Some p ->
                   CDPClient.pending (client st) !! j = Some q ->
                   (i = j <-> p = q)) /\
  CDPClient.pending (client st) !! Z.of_nat (S n) = None.
Proof.
  intros Hinv%reachable_invariant n.
  assert (forall i p, CDPClient.pending (client st) !! i = Some p ->
            (1 <= i <= Z.of_nat n)%Z) as Hrange.
  { intros i p Hip.
    destruct (inv_pending _ Hinv _ _ Hip) as (_ & k & w & Hk & <- & _).
    destruct (inv_ids _ Hinv _ _ Hk) as [-> _].
    apply lookup_lt_Some in Hk. unfold n. lia. }
  split; [apply (inv_counter _ Hinv)|].
  split; [apply sent_ids; intros k w Hk; by apply (inv_ids _ Hinv)|].
  split; [|split; [|split; [|split]]].
  - intros k k' w w' Hk Hk' Hlt.
    destruct (inv_ids _ Hinv _ _ Hk) as [-> _].
    destruct (inv_ids _ Hinv _ _ Hk') as [-> _]. lia.
  - intros method params.
    destruct (send_socket method params st (inv_socket _ Hinv))
      as (_ & _ & -> & _).
    rewrite (inv_counter _ Hinv). fold n.
    by replace (Z.of_nat n + 1)%Z with (Z.of_nat (S n)) by lia.
  - intros i p Hip. split; [by eapply Hrange|].
    destruct (inv_pending _ Hinv _ _ Hip) as (Hp & Hw). done.
  - intros i j p q Hip Hjq. split; [intros ->; congruence|intros ->].
    destruct (inv_pending _ Hinv _ _ Hip) as (_ & k & w & Hk & <- & Hp).
    destruct (inv_pending _ Hinv _ _ Hjq) as (_ & k' & w' & Hk' & <- & Hq).
    rewrite <- Hq in Hp.
    by rewrite (inv_distinct _ Hinv _ _ _ _ Hk Hk' Hp) in Hk; simplify_eq.
  - destruct (CDPClient.pending (client st) !! Z.of_nat (S n)) as [p|] eqn:Hp;
      [|done].
    apply Hrange in Hp. lia.
Qed.

(** On a fresh connection the first call has id 1 and the second id 2, for
    two calls that are both pending. *)
Lemma call_ids_first_calls :
  sent_of (snd (send "Page.enable" empty_object (connected "ws://127.0.0.1:9222")))
  = [mk_write (JObj [("id", JNum 1); ("method", JStr "Page.enable");
                     ("params", JObj [])]) 1 0] /\
  cb_id <$> sent_of (snd (send "Runtime.enable" empty_object one_call))
  = [1%Z; 2%Z].
Proof.
  assert (reachable (connected "ws://127.0.0.1:9222")) as H0.
  { by exists "ws://127.0.0.1:9222", []. }
  assert (reachable one_call) as H1.
  { by exists "ws://127.0.0.1:9222",
              [call_send "Runtime.evaluate" empty_object]. }
  destruct (call_ids _ H0) as (_ & _ & _ & Hnext0 & _).
  destruct (call_ids _ H1) as (_ & _ & _ & Hnext1 & _).
  split; [apply Hnext0|].
  by rewrite Hnext1.
Defined.

Lemma socket_closed_same (st : state) :
  CDPClient.pending (client (socket_closed st)) = CDPClient.pending (client st) /\
  promises (socket_closed st) = promises st.
Proof. unfold socket_closed. by destruct (CDPClient.ws (client st)). Qed.

(** C2.  When the connection closes, the 'close' handler runs: each of the
    calls that are pending (all of them outstanding: their promises are
    unsettled) is rejected with [Error('WebSocket closed')], the promises of
    other calls are left as they were, and no entry remains in [pending]. *)
Theorem close_rejects_pending_calls (st : state) :
  reachable st ->
  exists st',
    deliver ws_closed st = Normal st' /\
    st' = on_close (socket_closed st) /\
    (forall i p, CDPClient.pending (client st) !! i = Some p ->
       promises st !! p = Some Unsettled /\
       promises st' !! p = Some (Rejected (Error (Lit "WebSocket closed")))) /\
    (forall q, (forall i, CDPClient.pending (client st) !! i <> Some q) ->
       promises st' !! q = promises st !! q) /\
    CDPClient.pending (client st') = ∅.
Proof.
  intros Hinv%reachable_invariant.
  exists (on_close (socket_closed st)). split; [done|]. split; [done|].
  destruct (on_close_rejects (socket_closed st))
    as (Hpending & _ & _ & _ & _ & _ & _ & _ & Hrej & Hframe).
  destruct (socket_closed_same st) as [Hsame_pending Hsame_promises].
  rewrite Hsame_pending, Hsame_promises in *.
  split; [|split]; try done.
  intros i p Hip.
  destruct (inv_pending _ Hinv _ _ Hip) as [Hp _].
  split; [done|]. by apply (Hrej i).
Qed.

(** Two calls outstanding at the close: both are rejected, nothing is left
    pending. *)
Lemma close_rejects_two_calls :
  size (CDPClient.pending (client two_calls)) = 2%nat /\
  promises two_calls = [Unsettled; Unsettled] /\
  exists st',
    deliver ws_closed two_calls = Normal st' /\
    promises st'
    = [Rejected (Error (Lit "WebSocket closed"));
       Rejected (Error (Lit "WebSocket closed"))] /\
    CDPClient.pending (client st') = ∅.
Proof.
  assert (reachable two_calls) as Hreach.
  { by exists "ws://127.0.0.1:9222",
              [call_send "Runtime.evaluate" empty_object;
               call_send "Page.captureScreenshot" empty_object]. }
  destruct (close_rejects_pending_calls two_calls Hreach)
    as (st' & Hrun & Hst' & Hrej & _ & Hempty).
  split; [reflexivity|]. split; [reflexivity|].
  exists st'. split; [exact Hrun|]. split; [|exact Hempty].
  destruct (Hrej 1%Z 0%nat eq_refl) as [_ H0].
  destruct (Hrej 2%Z 1%nat eq_refl) as [_ H1].
  apply list_eq. intros [|[|k]]; [exact H0 | exact H1 |].
  rewrite Hst'. reflexivity.
Defined.

(** ** Responses *)

(** C5, as stated, fails on a response whose [error] field is falsy: the
    frame [{"id":1,"result":{"value":42},"error":null}] carries an error field
    and answers the pending call 1, and the call is resolved with the
    result. *)
Lemma null_error_resolves :
  prop frame_null_error "error" = Some JNull /\
  pending_get (JNum 1) (client one_call) = Some 0%nat /\
  exists st',
    on_message frame_null_error one_call = Normal st' /\
    promises st' !! 0%nat = Some (Fulfilled (JObj [("value", JNum 42)])).
Proof.
  split; [reflexivity|]. split; [reflexivity|].
  eexists. split; reflexivity.
Qed.

(** C5, amended.  A frame with the id of a pending call removes the call from
    [pending].  When its [error] is truthy, as every object is, the call is
    rejected with an [Error] whatever [result] the frame carries; the message
    is [error.message] when that is truthy, so the string itself when it is a
    non-empty string, and the JSON text of [error] otherwise.  When [error] is
    absent or falsy the call is resolved with [result], or with [{}] when
    [result] is absent or falsy. *)
Theorem error_takes_precedence (msg id : json) (cb : promise) (st : state) :
  reachable st ->
  truthy_value (prop msg "id") = Some id ->
  pending_get id (client st) = Some cb ->
  exists st',
    on_message msg st = Normal st' /\
    pending_get id (client st') = None /\
    (forall e, truthy_value (prop msg "error") = Some e ->
       promises st' !! cb = Some (Rejected (Error (error_message e))) /\
       (forall s, prop e "message" = Some (JStr s) -> s <> EmptyString ->
                  error_message e = Lit s) /\
       (truthy_value (prop e "message") = None ->
        error_message e = JSON_stringify e)) /\
    (truthy_value (prop msg "error") = None ->
     promises st' !! cb
     = Some (Fulfilled (or_else (prop msg "result") empty_object))).
Proof.
  intros Hinv%reachable_invariant Hid Hget.
  apply pending_get_Some in Hget as (n & -> & Hn).
  destruct (inv_pending _ Hinv _ _ Hn) as [Hcb _].
  rewrite (on_message_matched _ _ _ _ Hid Hn). eexists. split; [done|].
  simpl. split; [apply lookup_delete_eq|]. split.
  - intros e He. rewrite (settle_unsettled _ _ _ Hcb).
    unfold settlement_of. rewrite He. split; [done|].
    unfold error_message. split.
    + intros s -> Hs. simpl. by destruct s.
    + by intros ->.
  - intros He. rewrite (settle_unsettled _ _ _ Hcb).
    unfold settlement_of. by rewrite He.
Qed.

(** Scenario D: [{"id":1,"error":{"message":"boom"}}] rejects call 1 with
    the message "boom", and so does the same frame with a result added. *)
Lemma error_takes_precedence_scenario_D :
  (exists st',
     on_message frame_boom one_call = Normal st' /\
     promises st' !! 0%nat = Some (Rejected (Error (Lit "boom")))) /\
  (exists st',
     on_message frame_boom_and_result one_call = Normal st' /\
     promises st' !! 0%nat = Some (Rejected (Error (Lit "boom")))).
Proof.
  assert (reachable one_call) as Hreach.
  { by exists "ws://127.0.0.1:9222",
              [call_send "Runtime.evaluate" empty_object]. }
  split.
  - destruct (error_takes_precedence frame_boom (JNum 1) 0%nat one_call
                Hreach eq_refl eq_refl) as (st' & Hrun & _ & Herror & _).
    exists st'. split; [exact Hrun|].
    exact (proj1 (Herror (JObj [("message", JStr "boom")]) eq_refl)).
  - destruct (error_takes_precedence frame_boom_and_result (JNum 1) 0%nat
                one_call Hreach eq_refl eq_refl)
      as (st' & Hrun & _ & Herror & _).
    exists st'. split; [exact Hrun|].
    exact (proj1 (Herror (JObj [("message", JStr "boom")]) eq_refl)).
Defined.

(** ** Settled promises stay as they are *)

Lemma on_message_promises (msg : json) (st st' : state) :
  on_message msg st = Normal st' ->
  promises st' = promises st \/
  exists cb, promises st' = settle cb (settlement_of msg) (promises st).
Proof.
  intros Hrun.
  destruct (truthy_value (prop msg "id")) as [id|] eqn:Hid.
  - destruct (pending_get id (client st)) as [cb|] eqn:Hget.
    + apply pending_get_Some in Hget as (n & -> & Hn).
      rewrite (on_message_matched _ _ _ _ Hid Hn) in Hrun.
      injection Hrun as <-. eauto.
    + rewrite (on_message_unmatched _ _ _ Hid Hget) in Hrun.
      injection Hrun as <-. by left.
  - assert (msg <> JNull) as Hnull by (by intros ->).
    rewrite (on_message_event _ _ Hnull Hid) in Hrun. injection Hrun as <-.
    left.
    destruct (truthy_value (prop msg "method")) as [method|]; [|done].
    destruct (handlers_get method (client st)) as [handlers|]; [|done].
    by rewrite foldl_invoke.
Qed.

Lemma step_keeps_settled (a : action) (st st' : state) (q : promise)
    (s : settlement) :
  step a st = Normal st' ->
  promises st !! q = Some s -> s <> Unsettled ->
  promises st' !! q = Some s.
Proof.
  intros Hrun Hq Hs.
  destruct a as [method params|method h| |[msg| |k err]]; simpl in Hrun.
  - injection Hrun as <-. unfold send.
    destruct (CDPClient.ws (client st)); simpl;
      (rewrite lookup_app_l; [done | by eapply lookup_lt_Some]).
  - by injection Hrun as <-.
  - injection Hrun as <-. unfold close.
    destruct (CDPClient.ws (client st)) as [w|]; [|done].
    by destruct (WebSocket.readyState w =? 1)%Z.
  - apply on_message_promises in Hrun as [->|[cb ->]]; [done|].
    by apply settle_settled.
  - injection Hrun as <-.
    destruct (on_close_rejects (socket_closed st))
      as (_ & _ & _ & _ & _ & _ & Hkept & _).
    apply Hkept; [|done]. unfold socket_closed.
    by destruct (CDPClient.ws (client st)).
  - destruct (sent_of st !! k) as [w|]; injection Hrun as <-; [|done].
    by apply settle_settled.
Qed.

Lemma run_keeps_settled (history : list action) (st st' : state) (q : promise)
    (s : settlement) :
  run history st = Normal st' ->
  promises st !! q = Some s -> s <> Unsettled ->
  promises st' !! q = Some s.
Proof.
  revert st. induction history as [|a history IH]; intros st Hrun Hq Hs.
  - by injection Hrun as <-.
  - simpl in Hrun. destruct (step a st) as [st1|e] eqn:Hstep; [|done].
    eapply IH; [done| |done]. by eapply step_keeps_settled.
Qed.

(** ** Several calls and their responses *)

(** The frames of [delivery] answer calls that are outstanding, each a call of
    its own: after they have been handled, in the order of the list, every
    call that a frame answers is settled by that frame. *)
Lemma responses_settle_their_calls (delivery : list json) (st : state) :
  invariant st ->
  NoDup ((fun f => prop f "id") <$> delivery) ->
  (forall f, f ∈ delivery ->
     exists k w, sent_of st !! k = Some w /\
                 prop f "id" = Some (JNum (cb_id w)) /\
                 promises st !! cb_reject w = Some Unsettled) ->
  exists st',
    run ((fun f => incoming (ws_message f)) <$> delivery) st = Normal st' /\
    invariant st' /\
    sent_of st' = sent_of st /\
    forall f k w, f ∈ delivery -> sent_of st !! k = Some w ->
                  prop f "id" = Some (JNum (cb_id w)) ->
                  promises st' !! cb_reject w = Some (settlement_of f).
Proof.
  revert st. induction delivery as [|f delivery IH]; intros st Hinv Hnodup Hall.
  - exists st. split; [done|]. split; [done|]. split; [done|].
    intros f k w Hf. by apply elem_of_nil in Hf.
  - apply NoDup_cons in Hnodup as [Hfresh Hnodup].
    destruct (Hall f (list_elem_of_here _ _)) as (k & w & Hk & Hid & Hp).
    pose proof (inv_live _ Hinv _ _ Hk Hp) as Hlive.
    assert (truthy_value (prop f "id") = Some (JNum (cb_id w))) as Htruthy.
    { apply truthy_value_Some. split; [done|]. simpl.
      destruct (inv_ids _ Hinv _ _ Hk) as [-> _].
      apply negb_true_iff, Z.eqb_neq. lia. }
    pose proof (on_message_matched _ _ _ _ Htruthy Hlive) as Hstep.
    set (st1 := {| client := _; promises := _; invoked := _ |}) in Hstep.
    assert (invariant st1) as Hinv1 by (by eapply invariant_on_message).
    assert (sent_of st1 = sent_of st) as Hsent1 by done.
    destruct (IH st1 Hinv1 Hnodup) as (st' & Hrun & Hinv' & Hsent' & Hsettled).
    { intros f' Hf'.
      destruct (Hall f' (list_elem_of_further _ _ _ Hf'))
        as (k' & w' & Hk' & Hid' & Hp').
      exists k', w'. rewrite Hsent1. split; [done|]. split; [done|].
      simpl. rewrite settle_other; [done|]. intros Heq.
      rewrite (inv_distinct _ Hinv _ _ _ _ Hk Hk' Heq) in Hk.
      apply Hfresh. apply list_elem_of_fmap. exists f'. split; [|done].
      rewrite Hid, Hid'. congruence. }
    exists st'. simpl. rewrite Hstep. split; [done|]. split; [done|].
    split; [congruence|].
    intros f' k' w' [->|Hf']%elem_of_cons Hk' Hid'.
    + assert (w' = w) as ->.
      { rewrite Hid in Hid'. injection Hid' as Hid'.
        rewrite (invariant_id_inj _ _ _ _ _ Hinv Hk Hk' Hid') in Hk. congruence. }
      eapply run_keeps_settled; [done| |apply settlement_of_settled].
      simpl. by apply settle_unsettled.
    + apply (Hsettled f' k' w'); [done| |done]. by rewrite Hsent1.
Qed.

Lemma send_all_calls (calls : list (string * json)) (st : state) :
  invariant st ->
  invariant (snd (send_all calls st)) /\
  length (fst (send_all calls st)) = length calls /\
  length (sent_of (snd (send_all calls st)))
  = (length (sent_of st) + length calls)%nat /\
  (forall k w, sent_of st !! k = Some w ->
               sent_of (snd (send_all calls st)) !! k = Some w) /\
  (forall q, promises st !! q = Some Unsettled ->
             promises (snd (send_all calls st)) !! q = Some Unsettled) /\
  (forall k p, fst (send_all calls st) !! k = Some p ->
     exists w,
       sent_of (snd (send_all calls st)) !! (length (sent_of st) + k)%nat
       = Some w /\
       cb_reject w = p /\
       promises (snd (send_all calls st)) !! p = Some Unsettled).
Proof.
  revert st. induction calls as [|[method params] calls IH]; intros st Hinv.
  - simpl. split; [done|]. split; [done|]. split; [lia|].
    split; [done|]. split; [done|]. intros k p Hk. by destruct k.
  - simpl.
    destruct (send_socket method params st (inv_socket _ Hinv))
      as (Hp & _ & Hsent & _ & _ & Hpromises & _).
    pose proof (invariant_send method params st Hinv) as Hinv1.
    destruct (send method params st) as [p st1]. simpl in *.
    specialize (IH st1 Hinv1).
    destruct (send_all calls st1) as [ps st2]. simpl in *.
    destruct IH as (Hinv2 & Hlength & Hsent2 & Hkeep & Hunsettled & Hnew).
    rewrite Hsent, length_app in Hsent2. simpl in Hsent2.
    split; [done|]. split; [by rewrite Hlength|]. split; [lia|].
    split; [|split].
    + intros k w Hk. apply Hkeep. rewrite Hsent.
      rewrite lookup_app_l; [done | by eapply lookup_lt_Some].
    + intros q Hq. apply Hunsettled. rewrite Hpromises.
      rewrite lookup_app_l; [done | by eapply lookup_lt_Some].
    + intros [|k] p' Hk; simpl in Hk.
      * injection Hk as <-. eexists. split; [|split].
        -- apply Hkeep. rewrite Hsent, Nat.add_0_r.
           by rewrite lookup_app_r, Nat.sub_diag.
        -- done.
        -- apply Hunsettled. rewrite Hpromises, Hp.
           by rewrite lookup_app_r, Nat.sub_diag.
      * destruct (Hnew k p' Hk) as (w & Hw & Hcb & Hq).
        exists w. split; [|done].
        rewrite Hsent, length_app in Hw. simpl in Hw.
        by replace (length (sent_of st) + S k)%nat
          with (length (sent_of st) + 1 + k)%nat by lia.
Qed.

(** C1.  [calls] are sent one after the other on a connection, each returning
    a promise, and [frames] holds one response for each, the response of call
    [k] carrying the id that was written in the request of call [k].  Whatever
    the order [delivery] in which the responses arrive, all are handled
    without an exception, the promise of each call is settled by its own
    response (rejected when that response has an error, resolved with its
    result otherwise), and none of the calls is left pending. *)
Theorem responses_in_any_order (st : state) (calls : list (string * json))
    (frames delivery : list json) :
  reachable st ->
  length frames = length calls ->
  (forall k f w,
     frames !! k = Some f ->
     sent_of (snd (send_all calls st)) !! (length (sent_of st) + k)%nat = Some w ->
     prop f "id" = prop (payload w) "id") ->
  delivery ≡ₚ frames ->
  length (fst (send_all calls st)) = length calls /\
  exists st',
    run ((fun f => incoming (ws_message f)) <$> delivery)
        (snd (send_all calls st)) = Normal st' /\
    (forall k p f,
       fst (send_all calls st) !! k = Some p -> frames !! k = Some f ->
       promises st' !! p = Some (settlement_of f)) /\
    (forall k f id, frames !! k = Some f -> prop f "id" = Some id ->
       pending_get id (client st') = None).
Proof.
  intros Hinv%reachable_invariant Hlength Hids Hperm.
  destruct (send_all_calls calls st Hinv)
    as (Hinv1 & Hps & Hsent1 & _ & _ & Hnew).
  set (ps := fst (send_all calls st)) in *.
  set (st1 := snd (send_all calls st)) in *.
  assert (forall k f, frames !! k = Some f ->
            exists w p, sent_of st1 !! (length (sent_of st) + k)%nat = Some w /\
                        ps !! k = Some p /\ cb_reject w = p /\
                        promises st1 !! p = Some Unsettled /\
                        prop f "id" = Some (JNum (cb_id w))) as Hanswer.
  { intros k f Hf.
    destruct (lookup_lt_is_Some_2 ps k) as [p Hp].
    { rewrite Hps, <- Hlength. by eapply lookup_lt_Some. }
    destruct (Hnew k p Hp) as (w & Hw & Hcb & Hq).
    exists w, p. repeat split; try done.
    rewrite (Hids k f w Hf Hw). by apply (inv_ids _ Hinv1 _ _ Hw). }
  destruct (responses_settle_their_calls delivery st1 Hinv1)
    as (st' & Hrun & Hinv' & Hsent' & Hsettled).
  { rewrite Hperm. apply NoDup_alt. intros i j x.
    rewrite !list_lookup_fmap.
    destruct (frames !! i) as [fi|] eqn:Hi; [|done].
    destruct (frames !! j) as [fj|] eqn:Hj; [|done]. simpl.
    destruct (Hanswer i fi Hi) as (wi & _ & Hwi & _ & _ & _ & ->).
    destruct (Hanswer j fj Hj) as (wj & _ & Hwj & _ & _ & _ & ->).
    intros [= <-] [= Heq].
    pose proof (invariant_id_inj _ _ _ _ _ Hinv1 Hwi Hwj (eq_sym Heq)). lia. }
  { intros f Hf. rewrite Hperm in Hf.
    apply list_elem_of_lookup in Hf as [k Hk].
    destruct (Hanswer k f Hk) as (w & p & Hw & _ & <- & Hq & Hid). eauto. }
  split; [done|]. exists st'. split; [done|]. split.
  - intros k p f Hp Hf.
    destruct (Hanswer k f Hf) as (w & p' & Hw & Hp' & <- & _ & Hid).
    assert (p = cb_reject w) as -> by congruence.
    apply (Hsettled f (length (sent_of st) + k)%nat w); [|done..].
    rewrite Hperm. by eapply list_elem_of_lookup_2.
  - intros k f id Hf Hfid.
    destruct (Hanswer k f Hf) as (w & p & Hw & _ & <- & _ & Hid).
    rewrite Hid in Hfid. injection Hfid as <-. simpl.
    destruct (CDPClient.pending (client st') !! cb_id w) as [p'|] eqn:Hpending;
      [exfalso|done].
    destruct (inv_pending _ Hinv' _ _ Hpending)
      as (Hunsettled & k' & w' & Hw' & Hid' & <-).
    rewrite Hsent' in Hw'.
    rewrite (invariant_id_inj _ _ _ _ _ Hinv1 Hw' Hw Hid') in Hw'.
    assert (w' = w) as -> by congruence.
    rewrite (Hsettled f (length (sent_of st) + k)%nat w) in Hunsettled;
      [| |done..].
    + injection Hunsettled. apply settlement_of_settled.
    + rewrite Hperm. by eapply list_elem_of_lookup_2.
Qed.

(** Three calls on a fresh connection, answered in the order 3, 1, 2: the
    first call gets the result of response 1, the second the error of
    response 2 and the third the result of response 3. *)
Lemma responses_in_any_order_3_1_2 :
  exists st',
    run ((fun f => incoming (ws_message f))
           <$> [response_3; response_1; response_2])
        (snd (send_all three_calls (connected "ws://127.0.0.1:9222")))
    = Normal st' /\
    promises st' !! 0%nat = Some (Fulfilled (JObj [("frameId", JStr "F")])) /\
    promises st' !! 1%nat = Some (Rejected (Error (Lit "boom"))) /\
    promises st' !! 2%nat = Some (Fulfilled (JObj [])).
Proof.
  assert (reachable (connected "ws://127.0.0.1:9222")) as Hreach.
  { by exists "ws://127.0.0.1:9222", []. }
  destruct (responses_in_any_order
              (connected "ws://127.0.0.1:9222") three_calls
              [response_1; response_2; response_3]
              [response_3; response_1; response_2] Hreach eq_refl)
    as (_ & st' & Hrun & Hsettled & _).
  - intros [|[|[|k]]] f w Hf Hw; simpl in Hf; try discriminate;
      injection Hf as <-; injection Hw as <-; reflexivity.
  - apply (Permutation_cons_append [response_1; response_2] response_3).
  - exists st'. split; [exact Hrun|].
    split; [exact (Hsettled 0%nat 0%nat response_1 eq_refl eq_refl)|].
    split; [exact (Hsettled 1%nat 1%nat response_2 eq_refl eq_refl)|].
    exact (Hsettled 2%nat 2%nat response_3 eq_refl eq_refl).
Defined.

(** ** The session *)

(** When the socket opens, [connect] leaves a new client [connected]. *)
Lemma connect_open (wsUrl : string) (inbox : list event) :
  connect ws_open inbox
          {| client := new_CDPClient wsUrl; promises := []; invoked := [] |}
  = Returned tt inbox (connected wsUrl).
Proof. reflexivity. Qed.

(** What [await p] has done when it returns or throws: it has handled some
    of the events, the others are left, and [p] is settled. *)
Lemma await_settled (p : promise) (inbox rest : list event) (st st' : state)
    (s : settlement) :
  match s with
  | Fulfilled v => await p inbox st = Returned v rest st'
  | Rejected e => await p inbox st = Threw e rest st'
  | Unsettled => False
  end ->
  promises st' !! p = Some s /\
  exists handled,
    inbox = handled ++ rest /\
    run (incoming <$> handled) st = Normal st'.
Proof.
  revert st. induction inbox as [|ev inbox IH]; intros st Hawait.
  - simpl in Hawait.
    destruct (promises st !! p) as [[|v|e]|] eqn:Hp; destruct s;
      try done; injection Hawait as <- <- <-; (split; [done|]); by exists [].
  - simpl in Hawait.
    destruct (promises st !! p) as [[|v|e]|] eqn:Hp.
    + destruct (deliver ev st) as [st1|e1] eqn:Hstep; [|by destruct s].
      destruct (IH st1 Hawait) as (Hs & handled & -> & Hrun).
      split; [done|]. exists (ev :: handled). split; [done|].
      simpl. by rewrite Hstep.
    + destruct s; try done; injection Hawait as <- <- <-.
      split; [done|]. by exists [].
    + destruct s; try done; injection Hawait as <- <- <-.
      split; [done|]. by exists [].
    + destruct (deliver ev st) as [st1|e1] eqn:Hstep; [|by destruct s].
      destruct (IH st1 Hawait) as (Hs & handled & -> & Hrun).
      split; [done|]. exists (ev :: handled). split; [done|].
      simpl. by rewrite Hstep.
Qed.

(** Histories one after the other. *)
Lemma run_app (history history' : list action) (st : state) :
  run (history ++ history') st =
  match run history st with
  | Normal st' => run history' st'
  | Throw e => Throw e
  end.
Proof.
  revert st. induction history as [|a history IH]; intros st; simpl; [done|].
  by destruct (step a st).
Qed.

Lemma reachable_run (history : list action) (st st' : state) :
  reachable st -> run history st = Normal st' -> reachable st'.
Proof.
  intros (wsUrl & before & Hbefore) Hrun.
  exists wsUrl, (before ++ history). by rewrite run_app, Hbefore.
Qed.

(** The 'message' handler leaves the socket alone. *)
Lemma on_message_ws (msg : json) (st st' : state) :
  on_message msg st = Normal st' ->
  CDPClient.ws (client st') = CDPClient.ws (client st).
Proof.
  intros Hrun.
  destruct (truthy_value (prop msg "id")) as [id|] eqn:Hid.
  - destruct (pending_get id (client st)) as [cb|] eqn:Hget.
    + apply pending_get_Some in Hget as (n & -> & Hn).
      rewrite (on_message_matched _ _ _ _ Hid Hn) in Hrun.
      by injection Hrun as <-.
    + rewrite (on_message_unmatched _ _ _ Hid Hget) in Hrun.
      by injection Hrun as <-.
  - assert (msg <> JNull) as Hnull by (by intros ->).
    rewrite (on_message_event _ _ Hnull Hid) in Hrun. injection Hrun as <-.
    destruct (truthy_value (prop msg "method")) as [method|]; [|done].
    destruct (handlers_get method (client st)) as [handlers|]; [|done].
    by rewrite foldl_invoke.
Qed.

(** The socket of a connection is OPEN, CLOSING or CLOSED. *)
Lemma step_channel (a : action) (st st' : state) :
  step a st = Normal st' ->
  channel_open st || channel_closing st = true ->
  channel_open st' || channel_closing st' = true.
Proof.
  unfold channel_open, channel_closing.
  destruct a as [method params|method h| |[msg| |k err]]; simpl; intros Hrun.
  - injection Hrun as <-. unfold send.
    by destruct (CDPClient.ws (client st)).
  - by injection Hrun as <-.
  - injection Hrun as <-. unfold close.
    destruct (CDPClient.ws (client st)) as [w|] eqn:Hws; [|by rewrite Hws].
    destruct (WebSocket.readyState w =? 1)%Z eqn:Hopen; simpl;
      [done | by rewrite Hws, Hopen].
  - by rewrite (on_message_ws _ _ _ Hrun).
  - injection Hrun as <-.
    destruct (on_close_rejects (socket_closed st)) as (_ & -> & _).
    unfold socket_closed. by destruct (CDPClient.ws (client st)).
  - destruct (sent_of st !! k); by injection Hrun as <-.
Qed.

Lemma reachable_channel (st : state) :
  reachable st -> channel_open st || channel_closing st = true.
Proof.
  intros (wsUrl & history & Hrun).
  assert (channel_open (connected wsUrl) || channel_closing (connected wsUrl)
          = true) as Hstart by done.
  revert Hrun Hstart. generalize (connected wsUrl).
  induction history as [|a history IH]; intros st0 Hrun Hstart.
  - by injection Hrun as <-.
  - simpl in Hrun. destruct (step a st0) as [st1|e] eqn:Hstep; [|done].
    apply (IH st1 Hrun). by eapply step_channel.
Qed.

Lemma close_closes (st : state) : channel_open (close st) = false.
Proof.
  unfold close, channel_open.
  destruct (CDPClient.ws (client st)) as [w|] eqn:Hws; simpl.
  - destruct (WebSocket.readyState w =? 1)%Z eqn:Hopen; simpl.
    + done.
    + by rewrite Hws.
  - by rewrite Hws.
Qed.

Lemma close_closing (st : state) :
  channel_open st || channel_closing st = true ->
  channel_closing (close st) = true.
Proof.
  unfold close, channel_open, channel_closing.
  destruct (CDPClient.ws (client st)) as [w|] eqn:Hws; [|done].
  destruct (WebSocket.readyState w =? 1)%Z eqn:Hopen; simpl; [done|].
  by rewrite Hws.
Qed.

Lemma close_closed_after (st : state) : closed_after st (close st).
Proof.
  unfold closed_after, close.
  destruct (CDPClient.ws (client st)) as [w|] eqn:Hws.
  - destruct (WebSocket.readyState w =? 1)%Z eqn:Hopen; simpl.
    + do 6 (split; [done|]). split; [done|].
      intros w0 [= <-]. eexists. split; [done|]. simpl.
      split; [done|]. split; [done|]. lia.
    + rewrite Hws. do 6 (split; [done|]). split; [done|].
      intros w0 [= <-]. exists w. split; [done|]. split; [done|].
      split; [lia | done].
  - rewrite Hws. do 6 (split; [done|]). split; [done|]. done.
Qed.

(** [await client.send(...)] takes a connection from one of its states to
    another. *)
Lemma await_send_reachable (method : string) (params : json)
    (inbox : list event) (st st' : state) :
  reachable st ->
  exit_state (await_send method params inbox st) = Some st' ->
  reachable st'.
Proof.
  intros Hreach. unfold await_send.
  assert (reachable (snd (send method params st))) as Hsent.
  { by apply (reachable_run [call_send method params] st). }
  destruct (send method params st) as [p st1]. simpl in Hsent.
  destruct (await p inbox st1) as [v rest st2|e rest st2|st2|e st2] eqn:Hawait;
    simpl; intros [= <-].
  - destruct (await_settled p inbox rest st1 st2 (Fulfilled v) Hawait)
      as (_ & handled & _ & Hrun).
    by eapply reachable_run.
  - destruct (await_settled p inbox rest st1 st2 (Rejected e) Hawait)
      as (_ & handled & _ & Hrun).
    by eapply reachable_run.
Qed.

(** So does the [try] block, when the body does. *)
Lemma session_body_reachable (fn : Target.t -> async unit) (target : Target.t)
    (inbox : list event) (st st' : state) :
  through_client fn ->
  reachable st ->
  exit_state (session_body fn target inbox st) = Some st' ->
  reachable st'.
Proof.
  intros Hfn Hreach. unfold session_body, mbind, async_bind.
  pose proof (await_send_reachable "Page.enable" empty_object inbox st)
    as Hfirst.
  destruct (await_send "Page.enable" empty_object inbox st)
    as [v1 inbox1 st1|e1 inbox1 st1|st1|e1 st1]; try done;
    [|by intros [= <-]; apply Hfirst].
  assert (reachable st1) as Hreach1 by (by apply Hfirst).
  pose proof (await_send_reachable "Runtime.enable" empty_object inbox1 st1)
    as Hsecond.
  destruct (await_send "Runtime.enable" empty_object inbox1 st1)
    as [v2 inbox2 st2|e2 inbox2 st2|st2|e2 st2]; try done;
    [|by intros [= <-]; apply Hsecond].
  assert (reachable st2) as Hreach2 by (by apply Hsecond).
  pose proof (await_send_reachable "Log.enable" empty_object inbox2 st2)
    as Hthird.
  destruct (await_send "Log.enable" empty_object inbox2 st2)
    as [v3 inbox3 st3|e3 inbox3 st3|st3|e3 st3]; try done;
    [|by intros [= <-]; apply Hthird].
  assert (reachable st3) as Hreach3 by (by apply Hthird).
  by apply Hfn.
Qed.

(** The bodies of the examples act through the client. *)
Lemma body_returns_through_client : through_client body_returns.
Proof. intros target inbox st st' Hreach. simpl. by intros [= <-]. Qed.

Lemma body_throws_through_client : through_client body_throws.
Proof. intros target inbox st st' Hreach. simpl. by intros [= <-]. Qed.

Lemma body_navigates_through_client : through_client body_navigates.
Proof.
  intros target inbox st st' Hreach. unfold body_navigates, mbind, async_bind.
  pose proof (await_send_reachable
                "Page.navigate" (JObj [("url", JStr "http://127.0.0.1:8080")])
                inbox st) as Hsend.
  destruct (await_send "Page.navigate" _ inbox st)
    as [v rest st1|e rest st1|st1|e st1]; try done;
    simpl; intros [= <-]; by apply Hsend.
Qed.

(** C9.  When [withClient] has connected its client, the rest of it is the
    [try] block on an open channel followed by [close()]: if the setup calls
    and the body return, [withClient] returns after [close()], and if one of
    them throws, [withClient] throws the same exception after [close()].  So
    whenever [withClient] returns or throws with a connected client, for any
    body, the state at exit is the state at the end of the [try] block after
    [close()]: the client holds the same socket, which is CLOSING if it was
    OPEN, nothing else has changed, and the channel is not open.  When the
    body acts on the client through its methods only, the socket is CLOSING
    or CLOSED at exit. *)
Theorem withClient_closes (fetched : completion (list Target.t))
    (h : handshake) (flags : Flags.t) (fn : Target.t -> async unit)
    (inbox : list event) (o : outcome unit) :
  withClient fetched h flags fn inbox = Session o ->
  exists targets target,
    listTargets fetched = Normal targets /\
    pickTarget targets flags = Normal target /\
    h = ws_open /\
    let st_open :=
      connected (string_or_empty (Target.webSocketDebuggerUrl target)) in
    channel_open st_open = true /\
    (forall a rest st, session_body fn target inbox st_open = Returned a rest st ->
                       o = Returned a rest (close st)) /\
    (forall e rest st, session_body fn target inbox st_open = Threw e rest st ->
                       o = Threw e rest (close st)) /\
    (forall st, session_body fn target inbox st_open = Suspended st ->
                o = Suspended st) /\
    (forall e st, session_body fn target inbox st_open = Crashed e st ->
                  o = Crashed e st) /\
    (forall st, exit_state o = Some st ->
       channel_open st = false /\
       exists st_end,
         exit_state (session_body fn target inbox st_open) = Some st_end /\
         closed_after st_end st /\
         (through_client fn -> channel_closing st = true)).
Proof.
  unfold withClient.
  destruct (listTargets fetched) as [targets|e]; [|done].
  destruct (pickTarget targets flags) as [target|e] eqn:Hpick; [|done].
  destruct h as [|e|]; [|done..].
  rewrite connect_open.
  intros [= <-]. unfold session, try_finally.
  exists targets, target. split; [done|]. split; [done|]. split; [done|].
  assert (reachable
            (connected (string_or_empty (Target.webSocketDebuggerUrl target))))
    as Hopen.
  { by exists (string_or_empty (Target.webSocketDebuggerUrl target)), []. }
  pose proof (session_body_reachable
                fn target inbox
                (connected (string_or_empty (Target.webSocketDebuggerUrl target))))
    as Hbody.
  cbv zeta. split; [reflexivity|].
  destruct (session_body fn target inbox _) as [a rest st1|e rest st1|st1|e st1];
    (split; [intros; congruence|]); (split; [intros; congruence|]);
    (split; [intros; congruence|]); (split; [intros; congruence|]);
    simpl; intros st [= <-];
    (split; [apply close_closes|]); exists st1;
    (split; [done|]); (split; [apply close_closed_after|]);
    intros Hfn; apply close_closing, reachable_channel;
    by apply (Hbody st1 Hfn Hopen).
Qed.

(** The setup calls are answered and the body returns; the second setup call
    is answered with an error; the body throws; the body sends a call of its
    own and the call is answered.  Each time the channel is left closing. *)
Lemma withClient_closes_examples :
  (exists st,
     withClient (Normal [target_A; target_B]) ws_open default_flags
                body_returns setup_responses
     = Session (Returned tt [] st) /\
     channel_open st = false /\ channel_closing st = true) /\
  (exists st,
     withClient (Normal [target_A; target_B]) ws_open default_flags
                body_returns setup_fails
     = Session (Threw (Error (Lit "Runtime is busy")) [] st) /\
     channel_open st = false /\ channel_closing st = true) /\
  (exists st,
     withClient (Normal [target_A; target_B]) ws_open default_flags
                body_throws setup_responses
     = Session (Threw (Error (Lit "click failed: not-found")) [] st) /\
     channel_open st = false /\ channel_closing st = true) /\
  (exists st,
     withClient (Normal [target_A; target_B]) ws_open default_flags
                body_navigates navigate_responses
     = Session (Returned tt [] st) /\
     channel_open st = false /\ channel_closing st = true /\
     length (sent_of st) = 4%nat).
Proof.
  split; [|split; [|split]]; eexists; (split; [vm_compute; reflexivity|]).
  - match goal with
    | |- channel_open ?st = false /\ _ =>
        destruct (withClient_closes
                    (Normal [target_A; target_B]) ws_open default_flags
                    body_returns setup_responses (Returned tt [] st) eq_refl)
          as (targets & target & _ & _ & _ & _ & _ & _ & _ & _ & Hexit);
        destruct (Hexit st eq_refl) as (Hclosed & st_end & _ & _ & Hclosing)
    end.
    split; [exact Hclosed | exact (Hclosing body_returns_through_client)].
  - match goal with
    | |- channel_open ?st = false /\ _ =>
        destruct (withClient_closes
                    (Normal [target_A; target_B]) ws_open default_flags
                    body_returns setup_fails
                    (Threw (Error (Lit "Runtime is busy")) [] st) eq_refl)
          as (targets & target & _ & _ & _ & _ & _ & _ & _ & _ & Hexit);
        destruct (Hexit st eq_refl) as (Hclosed & st_end & _ & _ & Hclosing)
    end.
    split; [exact Hclosed | exact (Hclosing body_returns_through_client)].
  - match goal with
    | |- channel_open ?st = false /\ _ =>
        destruct (withClient_closes
                    (Normal [target_A; target_B]) ws_open default_flags
                    body_throws setup_responses
                    (Threw (Error (Lit "click failed: not-found")) [] st)
                    eq_refl)
          as (targets & target & _ & _ & _ & _ & _ & _ & _ & _ & Hexit);
        destruct (Hexit st eq_refl) as (Hclosed & st_end & _ & _ & Hclosing)
    end.
    split; [exact Hclosed | exact (Hclosing body_throws_through_client)].
  - match goal with
    | |- channel_open ?st = false /\ _ =>
        destruct (withClient_closes
                    (Normal [target_A; target_B]) ws_open default_flags
                    body_navigates navigate_responses (Returned tt [] st)
                    eq_refl)
          as (targets & target & _ & _ & _ & _ & _ & _ & _ & _ & Hexit);
        destruct (Hexit st eq_refl) as (Hclosed & st_end & _ & _ & Hclosing)
    end.
    split; [exact Hclosed|].
    split; [exact (Hclosing body_navigates_through_client) | reflexivity].
Defined.


(** * Further properties *)

(** ** Command-line arguments *)

(** Two prefixes of one string: one is a prefix of the other. *)
Lemma prefix_of_same (a b s : string) :
  String.prefix a s = true -> String.prefix b s = true ->
  String.prefix a b = true \/ String.prefix b a = true.
Proof.
  revert b s. induction a as [|x a IH]; intros b s Ha Hb.
  - left. apply prefix_nil.
  - destruct b as [|y b]; [right; apply prefix_nil|].
    destruct s as [|z s]; [done|]. simpl in *.
    destruct (Ascii.ascii_dec x z) as [->|]; [|done].
    destruct (Ascii.ascii_dec y z) as [->|]; [|done].
    destruct (Ascii.ascii_dec z z); [|done].
    by apply (IH b s).
Qed.

(** An argument is at most one of the five flags. *)
Lemma one_flag (part a b : string) :
  String.prefix a b = false -> String.prefix b a = false ->
  startsWith part a = true -> startsWith part b = false.
Proof.
  intros Hab Hba Ha. destruct (startsWith part b) eqn:Hb; [|done].
  destruct (prefix_of_same a b part Ha Hb); congruence.
Qed.

Lemma parse_part_flags (Number : string -> Z) (acc : Args.t) (part : string) :
  let acc' := parse_part Number acc part in
  let flags := Args.flags acc in
  let flags' := Args.flags acc' in
  Args.positional acc' =
    Args.positional acc ++ (if is_flag part then [] else [part]) /\
  Flags.host flags' = default (Flags.host flags) (flag_value "--host=" part) /\
  Flags.port flags' =
    default (Flags.port flags) (Number <$> flag_value "--port=" part) /\
  Flags.target flags' =
    from_option Some (Flags.target flags) (flag_value "--target=" part) /\
  Flags.urlContains flags' =
    from_option Some (Flags.urlContains flags)
                (flag_value "--url-contains=" part) /\
  Flags.titleContains flags' =
    from_option Some (Flags.titleContains flags)
                (flag_value "--title-contains=" part).
Proof.
  unfold parse_part, is_flag, flag_value.
  destruct (startsWith part "--host=") eqn:Hhost.
  { rewrite (one_flag part "--host=" "--port="),
            (one_flag part "--host=" "--target="),
            (one_flag part "--host=" "--url-contains="),
            (one_flag part "--host=" "--title-contains=") by done.
    simpl. by rewrite app_nil_r. }
  destruct (startsWith part "--port=") eqn:Hport.
  { rewrite (one_flag part "--port=" "--target="),
            (one_flag part "--port=" "--url-contains="),
            (one_flag part "--port=" "--title-contains=") by done.
    simpl. by rewrite app_nil_r. }
  destruct (startsWith part "--target=") eqn:Htarget.
  { rewrite (one_flag part "--target=" "--url-contains="),
            (one_flag part "--target=" "--title-contains=") by done.
    simpl. by rewrite app_nil_r. }
  destruct (startsWith part "--url-contains=") eqn:Hurl.
  { rewrite (one_flag part "--url-contains=" "--title-contains=") by done.
    simpl. by rewrite app_nil_r. }
  destruct (startsWith part "--title-contains=") eqn:Htitle; simpl.
  - by rewrite app_nil_r.
  - done.
Qed.

Lemma last_value_snoc (prefix : string) (argv : list string) (part : string) :
  last_value prefix (argv ++ [part]) =
  from_option Some (last_value prefix argv) (flag_value prefix part).
Proof.
  unfold last_value. rewrite omap_app. simpl.
  destruct (flag_value prefix part) as [v|]; simpl.
  - by rewrite last_snoc.
  - by rewrite app_nil_r.
Qed.

(** X1.  [parseArgs] puts in [positional], in their order, exactly the
    arguments that are none of the five flags, wherever the flags stand among
    them; each flag takes the value of its last occurrence, and a flag that
    does not occur keeps its default (127.0.0.1, 9222, or no value). *)
Theorem parseArgs_last_wins (Number : string -> Z) (argv : list string) :
  let parsed := parseArgs Number argv in
  Args.positional parsed = List.filter (fun part => negb (is_flag part)) argv /\
  Flags.host (Args.flags parsed)
  = default "127.0.0.1" (last_value "--host=" argv) /\
  Flags.port (Args.flags parsed)
  = default 9222%Z (Number <$> last_value "--port=" argv) /\
  Flags.target (Args.flags parsed) = last_value "--target=" argv /\
  Flags.urlContains (Args.flags parsed) = last_value "--url-contains=" argv /\
  Flags.titleContains (Args.flags parsed)
  = last_value "--title-contains=" argv.
Proof.
  induction argv as [|part argv IH] using rev_ind; [done|].
  unfold parseArgs in *. rewrite foldl_app. simpl.
  destruct (parse_part_flags Number
              (foldl (parse_part Number)
                     {| Args.flags := default_flags; Args.positional := [] |}
                     argv) part)
    as (Hpos & Hhost & Hport & Htarget & Hurl & Htitle).
  destruct IH as (IHpos & IHhost & IHport & IHtarget & IHurl & IHtitle).
  rewrite Hpos, Hhost, Hport, Htarget, Hurl, Htitle.
  rewrite IHpos, IHhost, IHport, IHtarget, IHurl, IHtitle.
  rewrite !last_value_snoc, List.filter_app. simpl.
  split; [by destruct (is_flag part)|].
  split; [by destruct (flag_value "--host=" part)|].
  split; [by destruct (flag_value "--port=" part)|].
  split; [by destruct (flag_value "--target=" part)|].
  split; [by destruct (flag_value "--url-contains=" part)|].
  by destruct (flag_value "--title-contains=" part).
Qed.

(** [--target=T1 eval --url-contains=x 1 + 1 --target=T2 --port=9333]: the
    expression keeps its words in order and the second target wins. *)
Example parseArgs_example :
  parseArgs decimal
    ["--target=T1"; "eval"; "--url-contains=x"; "1"; "+"; "1"; "--target=T2";
     "--port=9333"]
  = {| Args.flags :=
         {| Flags.host := "127.0.0.1"; Flags.port := 9333;
            Flags.target := Some "T2"; Flags.urlContains := Some "x";
            Flags.titleContains := None |};
       Args.positional := ["eval"; "1"; "+"; "1"] |}.
Proof. reflexivity. Qed.

(** X2.  When the arguments give no selection flag, or give them only empty
    values, the command acts on the first target of the list. *)
Theorem parseArgs_pickTarget_default (Number : string -> Z)
    (argv : list string) (t : Target.t) (targets : list Target.t) :
  truthy_string (last_value "--target=" argv) = None ->
  truthy_string (last_value "--url-contains=" argv) = None ->
  truthy_string (last_value "--title-contains=" argv) = None ->
  pickTarget (t :: targets) (Args.flags (parseArgs Number argv)) = Normal t.
Proof.
  intros Htarget Hurl Htitle.
  destruct (parseArgs_last_wins Number argv)
    as (_ & _ & _ & Ht & Hu & Hti).
  unfold pickTarget. simpl. by rewrite Ht, Hu, Hti, Htarget, Hurl, Htitle.
Qed.

(** [eval document.title --target=] on the targets A and B acts on A. *)
Lemma parseArgs_pickTarget_default_example :
  pickTarget [target_A; target_B]
             (Args.flags (parseArgs decimal ["eval"; "document.title"; "--target="]))
  = Normal target_A.
Proof.
  by apply (parseArgs_pickTarget_default decimal
              ["eval"; "document.title"; "--target="] target_A [target_B]).
Defined.

(** ** Listing and selecting *)

Lemma elem_of_filter_bool {A} (f : A -> bool) (l : list A) (x : A) :
  x ∈ List.filter f l <-> x ∈ l /\ f x = true.
Proof. rewrite !list_elem_of_In. apply filter_In. Qed.

Lemma is_page_address (t : Target.t) :
  is_page t = true <->
  Target.type t = "page" /\
  exists address, Target.webSocketDebuggerUrl t = Some address /\
                  address <> EmptyString.
Proof.
  unfold is_page. rewrite andb_true_iff, String.eqb_eq.
  destruct (Target.webSocketDebuggerUrl t) as [[|c s]|]; simpl.
  - split; [by intros [_ ?] | intros [_ (a & Heq & Ha)]; by simplify_eq].
  - split; [|by intros [? _]].
    intros [? _]. split; [done|]. by exists (String c s).
  - split; [by intros [_ ?] | by intros [_ (a & ? & _)]].
Qed.

Lemma pickTarget_elem_of (targets : list Target.t) (flags : Flags.t)
    (t : Target.t) :
  pickTarget targets flags = Normal t -> t ∈ targets.
Proof.
  unfold pickTarget. destruct (length targets =? 0)%nat; [done|].
  destruct (truthy_string (Flags.target flags)) as [target|].
  - destruct (List.find _ targets) as [exact|] eqn:Hfind; [|done].
    intros [= <-]. apply find_some in Hfind as [Hin _].
    by apply list_elem_of_In.
  - rewrite (optional_filter Target.url), (optional_filter Target.title).
    destruct (List.filter _ (List.filter _ targets)) as [|first rest] eqn:Hf;
      [done|].
    intros [= <-].
    assert (first ∈ first :: rest) as Hin by apply list_elem_of_here.
    rewrite <- Hf in Hin.
    rewrite !elem_of_filter_bool in Hin. by destruct Hin as [[? _] _].
Qed.

(** X3.  Whatever the flags, the client of a session is connected to a target
    of the discovery response that is a page and has a non-empty debugger
    address, at that address: [withClient] opens no channel to a target that
    [listTargets] leaves out. *)
Theorem withClient_connects_to_page (fetched : completion (list Target.t))
    (h : handshake) (flags : Flags.t) (fn : Target.t -> async unit)
    (inbox : list event) (o : outcome unit) :
  withClient fetched h flags fn inbox = Session o ->
  exists response target address,
    fetched = Normal response /\
    target ∈ response /\
    Target.type target = "page" /\
    Target.webSocketDebuggerUrl target = Some address /\
    address <> EmptyString /\
    o = session fn target inbox (connected address).
Proof.
  unfold withClient, listTargets.
  destruct fetched as [response|e]; [|done].
  destruct (pickTarget _ flags) as [target|e] eqn:Hpick; [|done].
  destruct h as [|e|]; [|done..].
  rewrite connect_open. intros [= <-].
  apply pickTarget_elem_of in Hpick. unfold listTargets_filter in Hpick.
  rewrite elem_of_filter_bool in Hpick. destruct Hpick as [Hin Hpage].
  apply is_page_address in Hpage as (Htype & address & Haddress & Hne).
  exists response, target, address. by rewrite Haddress.
Qed.

(** A response that lists a worker before the pages A and B: the session is
    on a page of the response. *)
Lemma withClient_connects_to_page_example :
  exists o,
    withClient (Normal [target_worker; target_A; target_B]) ws_open
               default_flags body_returns setup_responses = Session o /\
    exists response target address,
      Normal [target_worker; target_A; target_B] = Normal response /\
      target ∈ response /\
      Target.type target = "page" /\
      Target.webSocketDebuggerUrl target = Some address /\
      address <> EmptyString /\
      o = session body_returns target setup_responses (connected address).
Proof.
  eexists. split; [reflexivity|].
  apply (withClient_connects_to_page
           (Normal [target_worker; target_A; target_B]) ws_open default_flags
           body_returns setup_responses).
  reflexivity.
Defined.


(** ** Event handlers *)

Lemma on_message_eventHandlers (msg : json) (st st' : state) :
  on_message msg st = Normal st' ->
  CDPClient.eventHandlers (client st') = CDPClient.eventHandlers (client st).
Proof.
  intros Hrun.
  destruct (truthy_value (prop msg "id")) as [id|] eqn:Hid.
  - destruct (pending_get id (client st)) as [cb|] eqn:Hget.
    + apply pending_get_Some in Hget as (n & -> & Hn).
      rewrite (on_message_matched _ _ _ _ Hid Hn) in Hrun.
      by injection Hrun as <-.
    + rewrite (on_message_unmatched _ _ _ Hid Hget) in Hrun.
      by injection Hrun as <-.
  - assert (msg <> JNull) as Hnull by (by intros ->).
    rewrite (on_message_event _ _ Hnull Hid) in Hrun. injection Hrun as <-.
    destruct (truthy_value (prop msg "method")) as [method|]; [|done].
    destruct (handlers_get method (client st)) as [handlers|]; [|done].
    by rewrite foldl_invoke.
Qed.

Lemma deliver_eventHandlers (ev : event) (st st' : state) :
  deliver ev st = Normal st' ->
  CDPClient.eventHandlers (client st') = CDPClient.eventHandlers (client st).
Proof.
  destruct ev as [msg| |k err]; simpl.
  - apply on_message_eventHandlers.
  - intros [= <-].
    destruct (on_close_rejects (socket_closed st)) as (_ & _ & _ & -> & _).
    unfold socket_closed. by destruct (CDPClient.ws (client st)).
  - destruct (sent_of st !! k); by intros [= <-].
Qed.

Lemma send_eventHandlers (method : string) (params : json) (st : state) :
  CDPClient.eventHandlers (client (snd (send method params st)))
  = CDPClient.eventHandlers (client st).
Proof. unfold send. by destruct (CDPClient.ws (client st)). Qed.

Lemma close_eventHandlers (st : state) :
  CDPClient.eventHandlers (client (close st))
  = CDPClient.eventHandlers (client st).
Proof.
  unfold close. destruct (CDPClient.ws (client st)) as [w|]; [|done].
  by destruct (WebSocket.readyState w =? 1)%Z.
Qed.

(** The handler list of a method after a history: the list it had, followed
    by the handlers registered since. *)
Lemma run_eventHandlers (method : string) (history : list action)
    (st st' : state) :
  run history st = Normal st' ->
  CDPClient.eventHandlers (client st') !! method =
  match registered method history with
  | [] => CDPClient.eventHandlers (client st) !! method
  | handlers =>
      Some (default [] (CDPClient.eventHandlers (client st) !! method)
            ++ handlers)
  end.
Proof.
  revert st. induction history as [|a history IH]; intros st Hrun.
  - by injection Hrun as <-.
  - simpl in Hrun. destruct (step a st) as [st1|e] eqn:Hstep; [|done].
    rewrite (IH st1 Hrun).
    destruct a as [m params|m h| |ev]; simpl in Hstep.
    + injection Hstep as <-. by rewrite send_eventHandlers.
    + injection Hstep as <-. simpl.
      destruct (String.eqb_spec m method) as [->|Hne].
      * rewrite lookup_insert_eq. simpl.
        destruct (registered method history); [done|].
        by rewrite <- app_assoc.
      * by rewrite lookup_insert_ne.
    + injection Hstep as <-. by rewrite close_eventHandlers.
    + by rewrite (deliver_eventHandlers _ _ _ Hstep).
Qed.

(** X5.  An event frame (one without a truthy id) that names a method calls
    the handlers registered for that method with [on], each once, in the
    order in which they were registered, with [params] or with [{}] when the
    frame has none; handlers of other methods are not called, and with no
    handler for the method nothing is called.  The client and the promises
    are left as they were. *)
Theorem event_fan_out (wsUrl method : string) (history : list action)
    (st : state) (msg : json) :
  run history (connected wsUrl) = Normal st ->
  truthy_value (prop msg "id") = None ->
  prop msg "method" = Some (JStr method) ->
  method <> EmptyString ->
  on_message msg st =
  Normal {| client := client st;
            promises := promises st;
            invoked :=
              invoked st ++
              map (fun h => (h, or_else (prop msg "params") empty_object))
                  (registered method history) |}.
Proof.
  intros Hrun Hid Hmethod Hne.
  assert (msg <> JNull) as Hnull by (by intros ->).
  rewrite (on_message_event _ _ Hnull Hid), Hmethod. simpl.
  destruct (String.eqb_spec method EmptyString) as [|_]; [done|]. simpl.
  rewrite (run_eventHandlers method _ _ _ Hrun). simpl.
  destruct (registered method history) as [|h handlers].
  - rewrite lookup_empty. simpl. rewrite app_nil_r. by destruct st.
  - rewrite lookup_empty. simpl. rewrite foldl_invoke. simpl.
    by rewrite <- app_assoc.
Qed.

(** Handlers 0 and 2 are registered for console calls and handler 1 for
    exceptions: a console event without params calls 0 and then 2 with [{}]. *)
Lemma event_fan_out_example :
  exists st,
    run logs_history (connected "ws://127.0.0.1:9222") = Normal st /\
    exists st',
      on_message frame_console_no_params st = Normal st' /\
      invoked st' = [(0%nat, JObj []); (2%nat, JObj [])].
Proof.
  eexists. split; [reflexivity|].
  eexists. split.
  - by apply (event_fan_out "ws://127.0.0.1:9222" "Runtime.consoleAPICalled"
                logs_history _ frame_console_no_params).
  - reflexivity.
Defined.

(** ** Writes are kept, ids are not reused *)

Lemma on_message_sent (msg : json) (st st' : state) :
  on_message msg st = Normal st' -> sent_of st' = sent_of st.
Proof.
  intros Hrun.
  destruct (truthy_value (prop msg "id")) as [id|] eqn:Hid.
  - destruct (pending_get id (client st)) as [cb|] eqn:Hget.
    + apply pending_get_Some in Hget as (n & -> & Hn).
      rewrite (on_message_matched _ _ _ _ Hid Hn) in Hrun.
      by injection Hrun as <-.
    + rewrite (on_message_unmatched _ _ _ Hid Hget) in Hrun.
      by injection Hrun as <-.
  - assert (msg <> JNull) as Hnull by (by intros ->).
    rewrite (on_message_event _ _ Hnull Hid) in Hrun. injection Hrun as <-.
    destruct (truthy_value (prop msg "method")) as [method|]; [|done].
    destruct (handlers_get method (client st)) as [handlers|]; [|done].
    by rewrite foldl_invoke.
Qed.

Lemma step_sent (a : action) (st st' : state) (k : nat) (w : write) :
  step a st = Normal st' ->
  sent_of st !! k = Some w -> sent_of st' !! k = Some w.
Proof.
  intros Hrun Hk.
  destruct a as [method params|method h| |[msg| |j err]]; simpl in Hrun.
  - injection Hrun as <-. unfold send, sent_of in *.
    destruct (CDPClient.ws (client st)) as [socket|]; simpl; [|done].
    rewrite lookup_app_l; [done | by eapply lookup_lt_Some].
  - by injection Hrun as <-.
  - injection Hrun as <-. unfold close, sent_of in *.
    destruct (CDPClient.ws (client st)) as [socket|] eqn:Hws; [|by rewrite Hws].
    destruct (WebSocket.readyState socket =? 1)%Z; [done | by rewrite Hws].
  - by rewrite (on_message_sent _ _ _ Hrun).
  - injection Hrun as <-.
    destruct (on_close_rejects (socket_closed st)) as (_ & Hws & _).
    unfold sent_of in *. rewrite Hws. unfold socket_closed.
    by destruct (CDPClient.ws (client st)).
  - destruct (sent_of st !! j); by injection Hrun as <-.
Qed.

Lemma run_sent (history : list action) (st st' : state) (k : nat) (w : write) :
  run history st = Normal st' ->
  sent_of st !! k = Some w -> sent_of st' !! k = Some w.
Proof.
  revert st. induction history as [|a history IH]; intros st Hrun Hk.
  - by injection Hrun as <-.
  - simpl in Hrun. destruct (step a st) as [st1|e] eqn:Hstep; [|done].
    eapply IH; [done|]. by eapply step_sent.
Qed.

(** Once the promise of a call is settled, the id of the call is the key of
    no pending entry again, and a frame with that id is dropped. *)
Lemma settled_id_stays_free (history : list action) (st st' : state)
    (k : nat) (w : write) (s : settlement) (f : json) :
  invariant st ->
  sent_of st !! k = Some w ->
  promises st !! cb_reject w = Some s -> s <> Unsettled ->
  run history st = Normal st' ->
  prop f "id" = Some (JNum (cb_id w)) ->
  promises st' !! cb_reject w = Some s /\
  CDPClient.pending (client st') !! cb_id w = None /\
  on_message f st' = Normal st'.
Proof.
  intros Hinv Hk Hs Hsettled Hrun Hid.
  pose proof (invariant_run _ _ _ Hinv Hrun) as Hinv'.
  pose proof (run_keeps_settled _ _ _ _ _ Hrun Hs Hsettled) as Hs'.
  pose proof (run_sent _ _ _ _ _ Hrun Hk) as Hk'.
  assert (CDPClient.pending (client st') !! cb_id w = None) as Hfree.
  { destruct (CDPClient.pending (client st') !! cb_id w) as [p|] eqn:Hp;
      [exfalso|done].
    destruct (inv_pending _ Hinv' _ _ Hp) as (Hu & j & w' & Hj & Hidw & <-).
    rewrite (invariant_id_inj _ _ _ _ _ Hinv' Hj Hk' Hidw) in Hj.
    assert (w' = w) as -> by congruence. congruence. }
  split; [done|]. split; [done|].
  apply (on_message_unmatched f (JNum (cb_id w))); [|done].
  apply truthy_value_Some. split; [done|]. simpl.
  destruct (inv_ids _ Hinv _ _ Hk) as [-> _].
  apply negb_true_iff, Z.eqb_neq. lia.
Qed.

(** X6.  When the write of a call that is still outstanding fails, the call
    is rejected with the write error and removed from [pending]; the other
    pending calls and every other promise are left as they were, and a
    response to that call that arrives later, after anything else, is
    dropped.  A call whose write fails at once leaves [pending] as it was
    before the call. *)
Theorem write_failure_rejects_call (st : state) (k : nat) (w : write)
    (err : exn) :
  reachable st ->
  sent_of st !! k = Some w ->
  promises st !! cb_reject w = Some Unsettled ->
  exists st',
    deliver (ws_send_error k err) st = Normal st' /\
    promises st' !! cb_reject w = Some (Rejected err) /\
    CDPClient.pending (client st')
    = delete (cb_id w) (CDPClient.pending (client st)) /\
    (forall q, q <> cb_reject w -> promises st' !! q = promises st !! q) /\
    (forall history st'' f,
       run history st' = Normal st'' ->
       prop f "id" = Some (JNum (cb_id w)) ->
       promises st'' !! cb_reject w = Some (Rejected err) /\
       on_message f st'' = Normal st'') /\
    (k = (length (sent_of st) - 1)%nat ->
     forall st0 method params,
       reachable st0 -> st = snd (send method params st0) ->
       CDPClient.pending (client st') = CDPClient.pending (client st0)).
Proof.
  intros Hreach Hk Hu. pose proof (reachable_invariant _ Hreach) as Hinv.
  simpl. rewrite Hk. eexists. split; [done|].
  assert (invariant (send_failed w err st)) as Hinv'.
  { by apply (invariant_settle st _ k w (Rejected err));
      [| | apply (inv_socket _ Hinv) | ..]. }
  assert (promises (send_failed w err st) !! cb_reject w = Some (Rejected err))
    as Hrejected by (by apply settle_unsettled).
  split; [done|]. split; [done|].
  split; [intros q Hq; by apply settle_other|].
  split.
  - intros history st'' f Hrun Hf.
    destruct (settled_id_stays_free history (send_failed w err st) st'' k w
                (Rejected err) f) as (? & _ & ?); done.
  - intros Hlast st0 method params Hreach0 ->.
    pose proof (reachable_invariant _ Hreach0) as Hinv0.
    destruct (send_socket method params st0 (inv_socket _ Hinv0))
      as (_ & _ & Hsent & _ & Hpending & _).
    rewrite Hsent in Hk. rewrite Hsent, length_app in Hlast. simpl in Hlast.
    rewrite Hlast in Hk.
    replace (length (sent_of st0) + 1 - 1)%nat with (length (sent_of st0))
      in Hk by lia.
    rewrite lookup_app_r, Nat.sub_diag in Hk by lia.
    injection Hk as <-. simpl. rewrite Hpending.
    rewrite delete_insert_eq. apply delete_id.
    destruct (CDPClient.pending (client st0) !! _) as [p|] eqn:Hp; [|done].
    destruct (inv_pending _ Hinv0 _ _ Hp) as (_ & j & w' & Hj & Hidw & _).
    destruct (inv_ids _ Hinv0 _ _ Hj) as [Hw' _].
    apply lookup_lt_Some in Hj. rewrite (inv_counter _ Hinv0) in Hidw. lia.
Qed.

(** One call on a fresh connection whose write fails: the call is rejected
    with the error of the socket and nothing is pending. *)
Lemma write_failure_rejects_call_example :
  exists st',
    deliver (ws_send_error 0 (Error (Lit "write EPIPE"))) one_call = Normal st' /\
    promises st' !! 0%nat = Some (Rejected (Error (Lit "write EPIPE"))) /\
    CDPClient.pending (client st') = ∅.
Proof.
  assert (reachable one_call) as Hreach.
  { by exists "ws://127.0.0.1:9222",
              [call_send "Runtime.evaluate" empty_object]. }
  destruct (write_failure_rejects_call one_call 0
              (mk_write (JObj [("id", JNum 1); ("method", JStr "Runtime.evaluate");
                               ("params", JObj [])]) 1 0)
              (Error (Lit "write EPIPE")) Hreach eq_refl eq_refl)
    as (st' & Hrun & Hrejected & _ & _ & _ & Hback).
  exists st'. split; [exact Hrun|]. split; [exact Hrejected|].
  apply (Hback eq_refl (connected "ws://127.0.0.1:9222")
               "Runtime.evaluate" empty_object); [|reflexivity].
  by exists "ws://127.0.0.1:9222", [].
Defined.

(** X7.  A response settles its call for good: after the response has been
    handled, whatever happens on the connection, the promise of the call keeps
    the settlement that this response gave it, and every later frame with the
    same id, a duplicate or another answer, is dropped without any effect. *)
Theorem first_response_wins (st : state) (f : json) (n : Z) (cb : promise) :
  reachable st ->
  truthy_value (prop f "id") = Some (JNum n) ->
  CDPClient.pending (client st) !! n = Some cb ->
  exists st1,
    on_message f st = Normal st1 /\
    promises st1 !! cb = Some (settlement_of f) /\
    forall history st2 f',
      run history st1 = Normal st2 ->
      prop f' "id" = Some (JNum n) ->
      promises st2 !! cb = Some (settlement_of f) /\
      on_message f' st2 = Normal st2.
Proof.
  intros Hinv%reachable_invariant Hid Hn.
  pose proof (on_message_matched _ _ _ _ Hid Hn) as Hstep.
  set (st1 := {| client := _ |}) in Hstep.
  exists st1. split; [done|].
  destruct (inv_pending _ Hinv _ _ Hn) as (Hu & k & w & Hk & <- & <-).
  assert (promises st1 !! cb_reject w = Some (settlement_of f)) as Hsettled.
  { by apply settle_unsettled. }
  split; [done|].
  intros history st2 f' Hrun Hf'.
  destruct (settled_id_stays_free history st1 st2 k w (settlement_of f) f')
    as (? & _ & ?); try done.
  - by eapply invariant_on_message.
  - apply settlement_of_settled.
Qed.

(** Call 1 is answered with 42; the same id answered again with an error, and
    then the close of the connection, leave the call resolved with 42. *)
Lemma first_response_wins_example :
  exists st1,
    on_message frame_value_42 one_call = Normal st1 /\
    exists st2,
      run [incoming (ws_message frame_boom); incoming ws_closed] st1
      = Normal st2 /\
      promises st2 !! 0%nat = Some (Fulfilled (JObj [("value", JNum 42)])).
Proof.
  assert (reachable one_call) as Hreach.
  { by exists "ws://127.0.0.1:9222",
              [call_send "Runtime.evaluate" empty_object]. }
  destruct (first_response_wins one_call frame_value_42 1 0%nat Hreach
              eq_refl eq_refl) as (st1 & Hrun & _ & Hlater).
  exists st1. split; [exact Hrun|].
  injection Hrun as <-.
  eexists. split; [reflexivity|].
  by apply (Hlater [incoming (ws_message frame_boom); incoming ws_closed]
                   _ frame_boom).
Defined.

(** ** Closing *)

Lemma close_twice (st : state) : close (close st) = close st.
Proof.
  unfold close. destruct (CDPClient.ws (client st)) as [w|] eqn:Hws.
  - destruct (WebSocket.readyState w =? 1)%Z eqn:Hopen; simpl.
    + done.
    + by rewrite Hws, Hopen.
  - by rewrite Hws.
Qed.

Lemma close_same_calls (st : state) :
  CDPClient.pending (client (close st)) = CDPClient.pending (client st) /\
  promises (close st) = promises st.
Proof.
  unfold close. destruct (CDPClient.ws (client st)) as [w|]; [|done].
  by destruct (WebSocket.readyState w =? 1)%Z.
Qed.

(** X8.  [close()] only asks an open socket to close: a second [close()], or a
    [close()] on a client whose channel is not open, changes nothing, and
    [close()] itself settles no call and removes none from [pending].  The
    calls that are pending at [close()] are rejected with
    [Error('WebSocket closed')] when the socket then reports 'close'. *)
Theorem close_leaves_calls_to_the_close_event (st : state) :
  reachable st ->
  close (close st) = close st /\
  (channel_open st = false -> close st = st) /\
  CDPClient.pending (client (close st)) = CDPClient.pending (client st) /\
  promises (close st) = promises st /\
  exists st',
    run [call_close; incoming ws_closed] st = Normal st' /\
    CDPClient.pending (client st') = ∅ /\
    forall i p, CDPClient.pending (client st) !! i = Some p ->
                promises st' !! p = Some (Rejected websocket_closed).
Proof.
  intros Hinv%reachable_invariant.
  destruct (close_same_calls st) as [Hpending Hpromises].
  split; [apply close_twice|]. split.
  { unfold channel_open, close.
    destruct (CDPClient.ws (client st)) as [w|]; [|done]. by intros ->. }
  split; [done|]. split; [done|].
  exists (on_close (socket_closed (close st))). split; [done|].
  destruct (on_close_rejects (socket_closed (close st)))
    as (Hempty & _ & _ & _ & _ & _ & _ & _ & Hrej & _).
  destruct (socket_closed_same (close st)) as [Hsame_pending Hsame_promises].
  rewrite Hsame_pending, Hsame_promises, Hpending, Hpromises in Hrej.
  split; [done|]. intros i p Hip. apply (Hrej i p Hip).
  by destruct (inv_pending _ Hinv _ _ Hip).
Qed.

(** Two calls are outstanding: [close()] leaves them so, and the 'close'
    event rejects both. *)
Lemma close_leaves_calls_to_the_close_event_example :
  promises (close two_calls) = [Unsettled; Unsettled] /\
  close (close two_calls) = close two_calls /\
  exists st',
    run [call_close; incoming ws_closed] two_calls = Normal st' /\
    promises st' !! 0%nat = Some (Rejected (Error (Lit "WebSocket closed"))) /\
    promises st' !! 1%nat = Some (Rejected (Error (Lit "WebSocket closed"))).
Proof.
  assert (reachable two_calls) as Hreach.
  { by exists "ws://127.0.0.1:9222",
              [call_send "Runtime.evaluate" empty_object;
               call_send "Page.captureScreenshot" empty_object]. }
  destruct (close_leaves_calls_to_the_close_event two_calls Hreach)
    as (Htwice & _ & _ & Hpromises & st' & Hrun & _ & Hrej).
  split; [exact Hpromises|]. split; [exact Htwice|].
  exists st'. split; [exact Hrun|].
  split; [exact (Hrej 1%Z 0%nat eq_refl) | exact (Hrej 2%Z 1%nat eq_refl)].
Defined.

(** ** Awaiting *)

Lemma deliver_sent (ev : event) (st st' : state) :
  deliver ev st = Normal st' -> sent_of st' = sent_of st.
Proof.
  destruct ev as [msg| |k err]; simpl.
  - apply on_message_sent.
  - intros [= <-].
    destruct (on_close_rejects (socket_closed st)) as (_ & Hws & _).
    unfold sent_of. rewrite Hws. unfold socket_closed.
    destruct (CDPClient.ws (client st)) eqn:Hsocket; simpl; by rewrite ?Hsocket.
  - destruct (sent_of st !! k); by intros [= <-].
Qed.

Lemma deliver_length (ev : event) (st st' : state) :
  deliver ev st = Normal st' -> length (promises st') = length (promises st).
Proof.
  destruct ev as [msg| |k err]; simpl.
  - intros [->|[cb ->]]%on_message_promises; by rewrite ?length_settle.
  - intros [= <-].
    destruct (on_close_rejects (socket_closed st))
      as (_ & _ & _ & _ & _ & -> & _).
    by destruct (socket_closed_same st) as [_ ->].
  - destruct (sent_of st !! k); intros [= <-]; [|done]. apply length_settle.
Qed.

Lemma run_incoming (handled : list event) (st st' : state) :
  run (incoming <$> handled) st = Normal st' ->
  sent_of st' = sent_of st /\ length (promises st') = length (promises st).
Proof.
  revert st. induction handled as [|ev handled IH]; intros st Hrun.
  - by injection Hrun as <-.
  - simpl in Hrun. destruct (deliver ev st) as [st1|e] eqn:Hstep; [|done].
    destruct (IH st1 Hrun) as [-> ->].
    by rewrite (deliver_sent _ _ _ Hstep), (deliver_length _ _ _ Hstep).
Qed.

(** [await client.send(method, params)] that returns: the call was written
    with the next id, and its promise is fulfilled. *)
Lemma await_send_returned (method : string) (params v : json)
    (inbox rest : list event) (st st' : state) :
  invariant st ->
  await_send method params inbox st = Returned v rest st' ->
  invariant st' /\
  sent_of st' =
    sent_of st ++
    [mk_write (JObj [("id", JNum (Z.of_nat (S (length (sent_of st)))));
                     ("method", JStr method); ("params", params)])
              (Z.of_nat (S (length (sent_of st)))) (length (promises st))] /\
  length (promises st') = S (length (promises st)) /\
  promises st' !! length (promises st) = Some (Fulfilled v) /\
  (forall q s, promises st !! q = Some s -> s <> Unsettled ->
               promises st' !! q = Some s).
Proof.
  intros Hinv Hawait. unfold await_send in Hawait.
  destruct (send_socket method params st (inv_socket _ Hinv))
    as (Hp & _ & Hsent & _ & _ & Hpromises & _).
  pose proof (invariant_send method params st Hinv) as Hinv1.
  destruct (send method params st) as [p st1]. simpl in *. subst p.
  destruct (await_settled _ _ _ _ _ (Fulfilled v) Hawait)
    as (Hv & handled & -> & Hrun).
  destruct (run_incoming _ _ _ Hrun) as [Hsent' Hlength'].
  split; [by eapply invariant_run|].
  split.
  { rewrite Hsent', Hsent, (inv_counter _ Hinv).
    by replace (Z.of_nat (length (sent_of st)) + 1)%Z
      with (Z.of_nat (S (length (sent_of st)))) by lia. }
  split; [rewrite Hlength', Hpromises, length_app; simpl; lia|].
  split; [done|].
  intros q s Hq Hs. eapply run_keeps_settled; [done| |done].
  rewrite Hpromises. rewrite lookup_app_l; [done | by eapply lookup_lt_Some].
Qed.

(** X9.  The body of a session runs only after the three setup calls: when it
    starts, [Page.enable], [Runtime.enable] and [Log.enable] have been written
    in this order with the ids 1, 2 and 3, each has been answered with a
    result, and no call is pending.  When a setup call is answered with an
    error or is never answered, [withClient] does not return normally and
    its outcome does not depend on the body: the body is not run. *)
Theorem withClient_setup_before_body (fetched : completion (list Target.t))
    (h : handshake) (flags : Flags.t) (fn : Target.t -> async unit)
    (inbox : list event) (o : outcome unit) :
  withClient fetched h flags fn inbox = Session o ->
  (exists target rest st v1 v2 v3,
     sent_of st = setup_writes /\
     promises st = [Fulfilled v1; Fulfilled v2; Fulfilled v3] /\
     CDPClient.pending (client st) = ∅ /\
     forall fn', withClient fetched h flags fn' inbox
                 = Session (try_finally (fn' target) close rest st)) \/
  ((forall a rest st, o <> Returned a rest st) /\
   forall fn', withClient fetched h flags fn' inbox = Session o).
Proof.
  unfold withClient.
  destruct (listTargets fetched) as [targets|e]; [|done].
  destruct (pickTarget targets flags) as [target|e]; [|done].
  destruct h as [|e|]; [|done..].
  rewrite connect_open.
  set (st0 := connected _).
  assert (invariant st0) as Hinv0 by apply invariant_connected.
  unfold session, session_body, try_finally, mbind, async_bind.
  destruct (await_send "Page.enable" empty_object inbox st0)
    as [v1 rest1 st1|e rest1 st1|st1|e st1] eqn:H1;
    [|intros [= <-]; right; split; [done|]; intros fn'; reflexivity..].
  destruct (await_send_returned _ _ _ _ _ _ _ Hinv0 H1)
    as (Hinv1 & Hsent1 & Hlen1 & Hv1 & _).
  destruct (await_send "Runtime.enable" empty_object rest1 st1)
    as [v2 rest2 st2|e rest2 st2|st2|e st2] eqn:H2;
    [|intros [= <-]; right; split; [done|]; intros fn'; reflexivity..].
  destruct (await_send_returned _ _ _ _ _ _ _ Hinv1 H2)
    as (Hinv2 & Hsent2 & Hlen2 & Hv2 & Hkeep2).
  destruct (await_send "Log.enable" empty_object rest2 st2)
    as [v3 rest3 st3|e rest3 st3|st3|e st3] eqn:H3;
    [|intros [= <-]; right; split; [done|]; intros fn'; reflexivity..].
  destruct (await_send_returned _ _ _ _ _ _ _ Hinv2 H3)
    as (Hinv3 & Hsent3 & Hlen3 & Hv3 & Hkeep3).
  intros _. left. exists target, rest3, st3, v1, v2, v3.
  rewrite Hlen1 in Hsent2, Hv2, Hlen2. rewrite Hlen2 in Hsent3, Hv3, Hlen3.
  rewrite Hsent1 in Hsent2. rewrite Hsent2 in Hsent3.
  simpl in *.
  assert (promises st3 = [Fulfilled v1; Fulfilled v2; Fulfilled v3]) as Hpromises.
  { apply list_eq. intros [|[|[|q]]]; simpl.
    - apply Hkeep3; [|done]. by apply Hkeep2.
    - by apply Hkeep3.
    - done.
    - apply lookup_ge_None. lia. }
  split; [rewrite Hsent3; reflexivity|]. split; [done|]. split.
  - apply map_empty. intros i.
    destruct (CDPClient.pending (client st3) !! i) as [p|] eqn:Hp; [exfalso|done].
    destruct (inv_pending _ Hinv3 _ _ Hp) as (Hu & k & w & Hk & _ & <-).
    rewrite Hsent3 in Hk. rewrite Hpromises in Hu.
    destruct k as [|[|[|k]]]; simpl in Hk; simplify_eq; done.
  - intros fn'. reflexivity.
Qed.

(** The three setup calls are answered in order: the body starts on a client
    with these three writes, three results and nothing pending. *)
Lemma withClient_setup_before_body_example :
  exists target rest st v1 v2 v3,
    sent_of st = setup_writes /\
    promises st = [Fulfilled v1; Fulfilled v2; Fulfilled v3] /\
    CDPClient.pending (client st) = ∅ /\
    forall fn', withClient (Normal [target_A; target_B]) ws_open default_flags
                           fn' setup_responses
                = Session (try_finally (fn' target) close rest st).
Proof.
  destruct (withClient_setup_before_body
              (Normal [target_A; target_B]) ws_open default_flags
              body_returns setup_responses
              (session body_returns target_A setup_responses
                 (connected "ws://127.0.0.1:9222/devtools/page/A")) eq_refl)
    as [Hbody | [Hnot _]].
  - exact Hbody.
  - exfalso. eapply Hnot. vm_compute. reflexivity.
Defined.

(** ** Screenshot names *)

(** The suffix has three digits at least. *)
Example suffix_padded :
  suffix 1 = "001" /\ suffix 42 = "042" /\ suffix 999 = "999" /\
  suffix 1000 = "1000".
Proof. repeat split. Qed.

Section nextScreenshotPath_facts.
Variable resolve : string -> string.
Variable parse : string -> ParsedPath.t.
Variable join : string -> string -> string.
Variable existsSync : string -> bool.

Lemma search_first_free (abs : string) (i count : nat) :
  match search parse join existsSync abs i count with
  | Some free =>
      exists j, (i <= j < i + count)%nat /\
                free = candidate parse join abs j /\
                existsSync free = false /\
                forall l, (i <= l < j)%nat ->
                          existsSync (candidate parse join abs l) = true
  | None =>
      forall l, (i <= l < i + count)%nat ->
                existsSync (candidate parse join abs l) = true
  end.
Proof.
  revert i. induction count as [|count IH]; intros i; simpl.
  - intros l Hl. lia.
  - destruct (existsSync (candidate parse join abs i)) eqn:Hi.
    + specialize (IH (S i)).
      destruct (search parse join existsSync abs (S i) count) as [free|].
      * destruct IH as (j & Hj & -> & Hfree & Htaken).
        exists j. split; [lia|]. split; [done|]. split; [done|].
        intros l Hl. destruct (decide (l = i)) as [->|Hne]; [done|].
        apply Htaken. lia.
      * intros l Hl. destruct (decide (l = i)) as [->|Hne]; [done|].
        apply IH. lia.
    + exists i. split; [lia|]. split; [done|]. split; [done|].
      intros l Hl. lia.
Qed.

(** X10.  [nextScreenshotPath] never returns the path of a file that exists.
    It returns the resolved path itself when no file is there; otherwise the
    candidate with the smallest number from 1 to 9999 that no file has; and
    it throws exactly when the path and all 9999 candidates exist. *)
Theorem nextScreenshotPath_is_free (outPath : string) :
  let abs := resolve outPath in
  let next := nextScreenshotPath resolve parse join existsSync outPath in
  (forall free, next = Normal free ->
     existsSync free = false /\
     (existsSync abs = false /\ free = abs \/
      existsSync abs = true /\
      exists i, (1 <= i <= 9999)%Z /\
                free = candidate parse join abs (Z.to_nat i) /\
                forall l, (1 <= l < i)%Z ->
                  existsSync (candidate parse join abs (Z.to_nat l)) = true)) /\
  (forall e, next = Throw e ->
     e = no_free_name abs /\
     existsSync abs = true /\
     forall l, (1 <= l <= 9999)%Z ->
               existsSync (candidate parse join abs (Z.to_nat l)) = true) /\
  (existsSync abs = false -> next = Normal abs).
Proof.
  intros abs next. unfold next, nextScreenshotPath. fold abs.
  pose proof (search_first_free abs 1 (N.to_nat 9999)) as Hsearch.
  assert (Z.of_nat (N.to_nat 9999) = 9999%Z) as Hcount by lia.
  revert Hsearch Hcount. generalize (N.to_nat 9999). intros count Hsearch Hcount.
  destruct (existsSync abs) eqn:Habs.
  - destruct (search parse join existsSync abs 1 count) as [free0|].
    + destruct Hsearch as (j & Hj & -> & Hfree & Htaken).
      split; [|split; [done|done]].
      intros free [= <-]. split; [done|]. right. split; [done|].
      exists (Z.of_nat j). rewrite Nat2Z.id. split; [lia|]. split; [done|].
      intros l Hl. apply Htaken. lia.
    + split; [done|]. split; [|done].
      intros e [= <-]. split; [done|]. split; [done|].
      intros l Hl. apply Hsearch. lia.
  - split; [|split; [done|done]].
    intros free [= <-]. split; [done|]. by left.
Qed.

End nextScreenshotPath_facts.

(** [shots/state.png] and [shots/state-001.png] exist: the next name is
    [shots/state-002.png]; in an empty directory it is [shots/state.png]. *)
Lemma nextScreenshotPath_is_free_example :
  nextScreenshotPath (fun p => p) shots_parse slash_join
    (among ["shots/state.png"; "shots/state-001.png"]) "shots/state.png"
  = Normal "shots/state-002.png" /\
  nextScreenshotPath (fun p => p) shots_parse slash_join (among [])
    "shots/state.png"
  = Normal "shots/state.png".
Proof.
  split.
  - reflexivity.
  - by apply (nextScreenshotPath_is_free (fun p => p) shots_parse slash_join
                (among []) "shots/state.png").
Defined.

(** ** What settles a call *)

Lemma step_keeps_outstanding (a : action) (st st' : state) (k : nat)
    (w : write) :
  invariant st ->
  sent_of st !! k = Some w ->
  promises st !! cb_reject w = Some Unsettled ->
  may_settle k (cb_id w) a = false ->
  step a st = Normal st' ->
  promises st' !! cb_reject w = Some Unsettled.
Proof.
  intros Hinv Hk Hu Hquiet Hrun.
  pose proof (inv_promises _ Hinv _ _ Hk) as Hlt.
  destruct a as [method params|method h| |[msg| |j err]]; simpl in *.
  - injection Hrun as <-. unfold send.
    destruct (CDPClient.ws (client st)); simpl; by rewrite lookup_app_l.
  - by injection Hrun as <-.
  - injection Hrun as <-. by destruct (close_same_calls st) as [_ ->].
  - destruct (truthy_value (prop msg "id")) as [id|] eqn:Hid.
    + destruct (pending_get id (client st)) as [cb|] eqn:Hget.
      * apply pending_get_Some in Hget as (n & -> & Hn).
        rewrite (on_message_matched _ _ _ _ Hid Hn) in Hrun.
        injection Hrun as <-. simpl. rewrite settle_other; [done|].
        intros ->.
        apply truthy_value_Some in Hid as [Hid _]. rewrite Hid in Hquiet.
        apply Z.eqb_neq in Hquiet. apply Hquiet.
        destruct (inv_pending _ Hinv _ _ Hn) as (_ & j & w' & Hj & <- & Heq).
        by rewrite (inv_distinct _ Hinv _ _ _ _ Hj Hk Heq) in Hj; simplify_eq.
      * rewrite (on_message_unmatched _ _ _ Hid Hget) in Hrun. congruence.
    + assert (msg <> JNull) as Hnull.
      { intros ->. by simpl in Hrun. }
      rewrite (on_message_event _ _ Hnull Hid) in Hrun. injection Hrun as <-.
      destruct (truthy_value (prop msg "method")) as [method|]; [|done].
      destruct (handlers_get method (client st)) as [handlers|]; [|done].
      by rewrite foldl_invoke.
  - done.
  - destruct (sent_of st !! j) as [w'|] eqn:Hj; injection Hrun as <-; [|done].
    simpl. rewrite settle_other; [done|]. intros Heq.
    apply Nat.eqb_neq in Hquiet. apply Hquiet.
    by apply (inv_distinct _ Hinv _ _ _ _ Hj Hk).
Qed.

(** X11.  A call stays outstanding, unsettled and in [pending] under its id,
    through everything that is neither a frame with its id, nor the close of
    the connection, nor the failure of its own write: other calls, their
    responses and write failures, events, [on] and [close()] do not settle
    it, and nothing settles it after a time. *)
Theorem call_waits_for_its_own_events (history : list action) (st st' : state)
    (k : nat) (w : write) :
  reachable st ->
  sent_of st !! k = Some w ->
  promises st !! cb_reject w = Some Unsettled ->
  forallb (fun a => negb (may_settle k (cb_id w) a)) history = true ->
  run history st = Normal st' ->
  promises st' !! cb_reject w = Some Unsettled /\
  CDPClient.pending (client st') !! cb_id w = Some (cb_reject w).
Proof.
  intros Hinv%reachable_invariant Hk Hu Hquiet Hrun.
  assert (promises st' !! cb_reject w = Some Unsettled) as Hu'.
  { revert st Hinv Hk Hu Hrun.
    induction history as [|a history IH]; intros st Hinv Hk Hu Hrun.
    - by injection Hrun as <-.
    - simpl in Hquiet. apply andb_true_iff in Hquiet as [Ha Hquiet].
      apply negb_true_iff in Ha.
      simpl in Hrun. destruct (step a st) as [st1|e] eqn:Hstep; [|done].
      apply (IH Hquiet st1); [by eapply invariant_step | by eapply step_sent
                              | by eapply step_keeps_outstanding | done]. }
  split; [done|].
  apply (inv_live _ (invariant_run _ _ _ Hinv Hrun) k); [|done].
  by eapply run_sent.
Qed.

(** Call 1 is outstanding while a second call is sent and answered, a stray
    frame and an event arrive and the second write is reported as failed. *)
Lemma call_waits_for_its_own_events_example :
  exists st',
    run [call_send "Page.captureScreenshot" empty_object;
         incoming (ws_message (JObj [("id", JNum 2); ("result", JObj [])]));
         incoming (ws_message frame_stray);
         incoming (ws_message frame_event);
         incoming (ws_send_error 1 (Error (Lit "write EPIPE")));
         call_close] one_call = Normal st' /\
    promises st' !! 0%nat = Some Unsettled /\
    CDPClient.pending (client st') !! 1%Z = Some 0%nat.
Proof.
  assert (reachable one_call) as Hreach.
  { by exists "ws://127.0.0.1:9222",
              [call_send "Runtime.evaluate" empty_object]. }
  eexists. split; [reflexivity|].
  by apply (call_waits_for_its_own_events
              [call_send "Page.captureScreenshot" empty_object;
               incoming (ws_message (JObj [("id", JNum 2); ("result", JObj [])]));
               incoming (ws_message frame_stray);
               incoming (ws_message frame_event);
               incoming (ws_send_error 1 (Error (Lit "write EPIPE")));
               call_close]
              one_call _ 0
              (mk_write (JObj [("id", JNum 1); ("method", JStr "Runtime.evaluate");
                               ("params", JObj [])]) 1 0) Hreach).
Defined.
